(** * Tile image generator: adjacency statistics and constrained sampling

    A shallow embedding of [TiledImageGenerator] from [main.py]: the
    adjacency counts learned from a tile mapping, the sampler built on
    numpy's [dirichlet] and [choice], the intersection of several neighbour
    constraints ([coupled_markov_chain]) and the two generation drivers
    ([generate], [generate_2]); and of [TiledImageProcessor], which cuts an
    image into tiles, numbers them and renders a mapping back.

    Python integers are [Z], dictionaries are [gmap], sets are [gset].
    Exceptions are an explicit result type, and the generator object together
    with the two global random sources is a state threaded through every
    method. *)

From Stdlib Require Import ZArith List Lia.
From stdpp Require Import base option list list_numbers gmap fin_maps fin_sets sorting.

Local Open Scope Z_scope.

(** ** Exceptions *)

Inductive PyErr : Type :=
| AssertionError
| IndexError
| KeyError
| ValueError.

Inductive Result (A : Type) : Type :=
| Ok (a : A)
| Raise (e : PyErr).
Arguments Ok {A} a.
Arguments Raise {A} e.

Definition bindR {A B} (r : Result A) (k : A → Result B) : Result B :=
  match r with
  | Ok a => k a
  | Raise e => Raise e
  end.

Notation "x <~ e ;; k" := (bindR e (λ x, k))
  (at level 100, e at next level, k at level 200, right associativity).

(** A [for] loop whose body may raise: the first exception ends the loop. *)
Fixpoint foldR {A B} (f : A → B → Result A) (a : A) (l : list B) : Result A :=
  match l with
  | [] => Ok a
  | b :: l' => a' <~ f a b ;; foldR f a' l'
  end.

(** ** Python containers *)

(** [l[i]] on a list: negative indices count from the end, anything outside
    raises [IndexError]. *)
Definition norm_index (len : nat) (i : Z) : Result nat :=
  let j := if i <? 0 then i + Z.of_nat len else i in
  if (j <? 0) || (Z.of_nat len <=? j) then Raise IndexError
  else Ok (Z.to_nat j).

Definition list_getitem {A} (l : list A) (i : Z) : Result A :=
  j <~ norm_index (length l) i ;;
  match l !! j with
  | Some x => Ok x
  | None => Raise IndexError
  end.

(** [d[k]] on a dict: a missing key raises [KeyError]. *)
Definition dict_getitem `{Countable K} {V} (d : gmap K V) (k : K) : Result V :=
  match d !! k with
  | Some v => Ok v
  | None => Raise KeyError
  end.

(** [range(n)] and [itertools.product]. *)
Definition range (n : Z) : list Z := seqZ 0 n.

Definition product {A B} (l : list A) (k : list B) : list (A * B) :=
  flat_map (λ x, map (λ y, (x, y)) k) l.

Definition enumerate {A} (l : list A) : list (Z * A) :=
  imap (λ i x, (Z.of_nat i, x)) l.

(** [collections.Counter]: a dict from tile ids to occurrence counts; reading
    a missing key gives 0 and does not insert it. *)
Abbreviation Counter := (gmap Z nat).

Definition counter_getitem (c : Counter) (x : Z) : nat := default 0%nat (c !! x).

(** [c.update([x])] *)
Definition counter_update (c : Counter) (x : Z) : Counter :=
  <[x := S (counter_getitem c x)]> c.

(** ** Mappings

    A mapping is the dict [{'info': {'row': r, 'col': c}, (u, v): tile, ...}]. *)

Record Mapping : Type := MkMapping {
  info_row : Z;
  info_col : Z;
  cells : gmap (Z * Z) Z
}.

(** ** The generator object *)

Abbreviation Counts := (list (gmap Z Counter)).

Record TiledImageGenerator : Type := MkGenerator {
  self_mapping : Mapping;
  self_n : Z;
  self_counts : Counts
}.

Definition adjacent_neighbors : list (Z * Z) := [(1, 0); (0, -1); (-1, 0); (0, 1)].
Definition diagonal_neighbors : list (Z * Z) := [(1, -1); (-1, -1); (-1, 1); (1, 1)].

Definition _tuple_sum (a b : Z * Z) : Z * Z :=
  let '(i, j) := a in
  let '(u, v) := b in
  (i + u, j + v).

(** [{i: Counter() for i in range(8)}] *)
Definition empty_directions : gmap Z Counter :=
  list_to_map ((λ i, (i, ∅)) <$> range 8).

(** [counts[tile][i].update([neighbor])] *)
Definition counts_update (counts : Counts) (tile i neighbor : Z) : Result Counts :=
  j <~ norm_index (length counts) tile ;;
  d <~ list_getitem counts tile ;;
  c <~ dict_getitem d i ;;
  Ok (<[j := <[i := counter_update c neighbor]> d]> counts).

(** The body of the inner loop of [_compute_counts]. *)
Definition observe (m : Mapping) (tile : Z) (uv : Z * Z)
    (counts : Counts) (ni : Z * (Z * Z)) : Result Counts :=
  let '(i, n) := ni in
  let hk := _tuple_sum n uv in
  match cells m !! hk with
  | Some neighbor => counts_update counts tile i neighbor
  | None => Ok counts
  end.

(** The body of the outer loop of [_compute_counts]. *)
Definition scan_cell (m : Mapping) (counts : Counts) (uv : Z * Z) : Result Counts :=
  tile <~ dict_getitem (cells m) uv ;;
  foldR (observe m tile uv) counts
        (enumerate (adjacent_neighbors ++ diagonal_neighbors)).

Definition _compute_counts (m : Mapping) (n : Z) : Result Counts :=
  let width := info_col m in
  let height := info_row m in
  let counts := replicate (Z.to_nat n) empty_directions in
  foldR (scan_cell m) counts (product (range width) (range height)).

(** [TiledImageGenerator(mapping, n)] *)
Definition __init__ (m : Mapping) (n : Z) : Result TiledImageGenerator :=
  counts <~ _compute_counts m n ;;
  Ok (MkGenerator m n counts).

(** ** State: the generator object and the random sources

    [np_random] stands for numpy's global generator and [py_random] for the
    one of Python's [random] module.  Each is a tape of naturals; one entry
    decides one draw, and an exhausted tape answers 0. *)

Record World : Type := MkWorld {
  self : TiledImageGenerator;
  np_random : list nat;
  py_random : list nat
}.

Definition Py (A : Type) : Type := World → Result A * World.

Definition ret {A} (a : A) : Py A := λ w, (Ok a, w).
Definition raise {A} (e : PyErr) : Py A := λ w, (Raise e, w).
Definition lift {A} (r : Result A) : Py A := λ w, (r, w).

Definition bind {A B} (m : Py A) (k : A → Py B) : Py B :=
  λ w, match m w with
       | (Ok a, w') => k a w'
       | (Raise e, w') => (Raise e, w')
       end.

Notation "x <- e ;; k" := (bind e (λ x, k))
  (at level 100, e at next level, k at level 200, right associativity).

Fixpoint foldP {A B} (f : A → B → Py A) (a : A) (l : list B) : Py A :=
  match l with
  | [] => ret a
  | b :: l' => a' <- f a b ;; foldP f a' l'
  end.

Fixpoint mapP {A B} (f : A → Py B) (l : list A) : Py (list B) :=
  match l with
  | [] => ret []
  | a :: l' => b <- f a ;; bs <- mapP f l' ;; ret (b :: bs)
  end.

Definition get_counts : Py Counts := λ w, (Ok (self_counts (self w)), w).
Definition get_n : Py Z := λ w, (Ok (self_n (self w)), w).

Definition pick (tape : list nat) (k : nat) : nat * list nat :=
  match tape with
  | [] => (0%nat, [])
  | x :: tape' => ((x mod k)%nat, tape')
  end.

Definition draw_np (k : nat) : Py nat :=
  λ w, let '(i, t) := pick (np_random w) k in
       (Ok i, MkWorld (self w) t (py_random w)).

Definition draw_py (k : nat) : Py nat :=
  λ w, let '(i, t) := pick (py_random w) k in
       (Ok i, MkWorld (self w) (np_random w) t).

(** [random.choice(seq)] *)
Definition random_choice {A} (l : list A) : Py A :=
  match l with
  | [] => raise IndexError
  | _ => i <- draw_py (length l) ;;
         match l !! i with
         | Some x => ret x
         | None => raise IndexError
         end
  end.

(** [choice(ids, p=dirichlet(frequencies))]: [dirichlet] rejects a
    concentration that is not positive, [choice] rejects an empty population
    and a probability vector of another length.  With positive
    concentrations every id can come out; the tape decides which. *)
Definition sample (ids : list Z) (frequencies : list nat) : Py Z :=
  if existsb (Nat.eqb 0) frequencies then raise ValueError
  else match ids with
       | [] => raise ValueError
       | _ =>
         if negb (length ids =? length frequencies)%nat then raise ValueError
         else i <- draw_np (length ids) ;;
              match ids !! i with
              | Some x => ret x
              | None => raise ValueError
              end
       end.

(** [self.counts[tile][n]] *)
Definition counts_getitem (tile n : Z) : Py Counter :=
  counts <- get_counts ;;
  d <- lift (list_getitem counts tile) ;;
  lift (dict_getitem d n).

Definition keys (c : Counter) : list Z := (map_to_list c).*1.
Definition values (c : Counter) : list nat := (map_to_list c).*2.

Definition wavefunction (tile neighbor_id : Z) : Py Z :=
  c <- counts_getitem tile neighbor_id ;;
  let ids := keys c in
  let frequencies := values c in
  sample ids frequencies.

(** [valid_tiles = set(counts[0]); for c in counts: valid_tiles.intersection_update(c)] *)
Definition valid_tiles (counts : list Counter) : Result (gset Z) :=
  c0 <~ list_getitem counts 0 ;;
  Ok (foldl (λ s c, s ∩ dom c) (dom c0) counts).

(** [{t: 0 for t in valid_tiles}], then [valid_tile_counts[t] += c[t]] for
    every valid [t] and every [c]. *)
Definition add_count (t : Z) (vtc : Counter) (c : Counter) : Result Counter :=
  old <~ dict_getitem vtc t ;;
  Ok (<[t := (old + counter_getitem c t)%nat]> vtc).

Definition valid_tile_counts (valid : gset Z) (counts : list Counter) : Result Counter :=
  foldR (λ vtc t, foldR (add_count t) vtc counts)
        (gset_to_gmap 0%nat valid) (elements valid).

Definition coupled_markov_chain (tiles neighbors : list Z) : Py Z :=
  counts <- mapP (λ '(tile, n), counts_getitem tile n) (zip tiles neighbors) ;;
  valid <- lift (valid_tiles counts) ;;
  vtc <- lift (valid_tile_counts valid counts) ;;
  if decide (vtc = ∅) then raise AssertionError
  else
    let ids := keys vtc in
    let frequencies := values vtc in
    sample ids frequencies.

(** [inverse_neighbor]: given a neighbour's offset, the direction under which
    that neighbour sees the cell. *)
Definition inverse_neighbor : gmap (Z * Z) Z :=
  list_to_map [((1, 0), 2); ((0, -1), 3); ((-1, 0), 0); ((0, 1), 1)].

(** The inner loop of [generate]: the placed orthogonal neighbours of
    [(h, k)] and the direction of each towards [(h, k)]. *)
Definition gather_step (m : gmap (Z * Z) Z) (hk : Z * Z)
    (acc : list Z * list Z) (n : Z * Z) : Result (list Z * list Z) :=
  let '(neighbor_tiles, positions) := acc in
  let uv := _tuple_sum hk n in
  match m !! uv with
  | None => Ok acc
  | Some t =>
    p <~ dict_getitem inverse_neighbor n ;;
    Ok (neighbor_tiles ++ [t], positions ++ [p])
  end.

Definition gather (m : gmap (Z * Z) Z) (hk : Z * Z) : Result (list Z * list Z) :=
  foldR (gather_step m hk) ([], []) adjacent_neighbors.

(** The body of the outer loop of [generate]. *)
Definition generate_step (m : gmap (Z * Z) Z) (hk : Z * Z) : Py (gmap (Z * Z) Z) :=
  match m !! hk with
  | Some _ => ret m
  | None =>
    np <- lift (gather m hk) ;;
    t <- coupled_markov_chain np.1 np.2 ;;
    ret (<[hk := t]> m)
  end.

Definition generate (row col : Z) : Py Mapping :=
  n <- get_n ;;
  tile <- random_choice (range n) ;;
  let mapping : gmap (Z * Z) Z := {[ (0, 0) := tile ]} in
  cs <- foldP generate_step mapping (product (range row) (range col)) ;;
  ret (MkMapping row col cs).

(** The direction lists [generate_2] passes for the cells (1,0) and (0,1). *)
Definition generate_2_positions_10 : list Z := [2; 3].
Definition generate_2_positions_01 : list Z := [1; 0].

Definition generate_2 : Py Mapping :=
  let row := 2 in
  let col := 2 in
  n <- get_n ;;
  tile <- random_choice (range n) ;;
  let mapping : gmap (Z * Z) Z := {[ (0, 0) := tile ]} in
  s <- wavefunction tile 7 ;;
  let mapping := <[(1, 1) := s]> mapping in
  let tiles := [tile; s] in
  x <- coupled_markov_chain tiles generate_2_positions_10 ;;
  let mapping := <[(1, 0) := x]> mapping in
  y <- coupled_markov_chain tiles generate_2_positions_01 ;;
  let mapping := <[(0, 1) := y]> mapping in
  ret (MkMapping row col mapping).

(** ** The tile extractor, [TiledImageProcessor]

    A PIL image is known here by its size and by what [crop] returns for a
    box; a tile is such a crop.  Tiles are compared as [in] and [index]
    compare images, by an equality that is decidable.  An image under
    construction ([Image.new] followed by [paste]) is its size and the list
    of pastes made, in order. *)

Module Processor.

Inductive ArithErr : Type := ZeroDivisionError.

Section processor.
Context {Tile : Type} `{EqDecision Tile}.

Record Image : Type := MkImage {
  size : Z * Z;
  crop : Z * Z * Z * Z → Tile
}.

Record Canvas : Type := MkCanvas {
  canvas_size : Z * Z;
  pastes : list (Tile * (Z * Z))
}.

(** [box = (u, v, u + self.x, v + self.y)] with [u = i * self.x] and
    [v = j * self.y] *)
Definition box (x y : Z) (ij : Z * Z) : Z * Z * Z * Z :=
  let u := ij.1 * x in
  let v := ij.2 * y in
  (u, v, u + x, v + y).

Definition _image_to_tiles (img : Image) (x y col row : Z) : list Tile :=
  foldl (λ tiles ij,
           let c := crop img (box x y ij) in
           if decide (c ∈ tiles) then tiles else tiles ++ [c])
        [] (product (range col) (range row)).

Definition _all_tiles (img : Image) (x y col row : Z) : gmap (Z * Z) Tile :=
  foldl (λ all_tiles ij, <[ij := crop img (box x y ij)]> all_tiles)
        ∅ (product (range col) (range row)).

Record TiledImageProcessor : Type := MkProcessor {
  x : Z;
  y : Z;
  img : Image;
  w : Z;
  h : Z;
  col : Z;
  row : Z;
  tile_list : list Tile;
  n : Z
}.

(** The constructor, from the opened image; [//] by zero raises. *)
Definition __init__ (image : Image) (tile_x tile_y : Z)
    : ArithErr + TiledImageProcessor :=
  let '(w, h) := size image in
  if decide (tile_x = 0) then inl ZeroDivisionError
  else
    let col := w `div` tile_x in
    if decide (tile_y = 0) then inl ZeroDivisionError
    else
      let row := h `div` tile_y in
      let tile_list := _image_to_tiles image tile_x tile_y col row in
      inr (MkProcessor tile_x tile_y image w h col row tile_list
                       (Z.of_nat (length tile_list))).

(** [assert tile in self.tile_list; return self.tile_list.index(tile)] *)
Definition tile_id (self : TiledImageProcessor) (tile : Tile) : Result Z :=
  match list_find (λ t, t = tile) (tile_list self) with
  | Some (i, _) => Ok (Z.of_nat i)
  | None => Raise AssertionError
  end.

(** [mapping]: the loop visits the keys of [tiles], which are distinct, and
    can only fail with the [AssertionError] of [tile_id]; the order of the
    visit does not show in the result. *)
Definition mapping (self : TiledImageProcessor) : Result Mapping :=
  let tiles := _all_tiles (img self) (x self) (y self) (col self) (row self) in
  cs <~ foldR (λ (m : gmap (Z * Z) Z) (it : (Z * Z) * Tile),
                 id <~ tile_id self it.2 ;; Ok (<[it.1 := id]> m))
              ∅ (map_to_list tiles) ;;
  Ok (MkMapping (row self) (col self) cs).

(** [Image.new] refuses a negative width or height. *)
Definition image_new (size : Z * Z) : Result Canvas :=
  if decide (size.1 < 0 ∨ size.2 < 0) then Raise ValueError
  else Ok (MkCanvas size []).

Definition paste (image : Canvas) (tile : Tile) (at_ : Z * Z) : Canvas :=
  MkCanvas (canvas_size image) (pastes image ++ [(tile, at_)]).

Definition mapping_to_image (self : TiledImageProcessor) (m : Mapping)
    : Result Canvas :=
  let width := info_col m in
  let height := info_row m in
  image <~ image_new (width * x self, height * y self) ;;
  foldR (λ image uv,
           match cells m !! uv with
           | None => Ok image
           | Some id =>
             tile <~ list_getitem (tile_list self) id ;;
             Ok (paste image tile (uv.1 * x self, uv.2 * y self))
           end)
        image (product (range width) (range height)).



End processor.
End Processor.

(** ** Vocabulary of the properties *)

(** The distributions named by a list of constraints, as the first loop of
    [coupled_markov_chain] collects them. *)
Definition constraint_counts (tiles neighbors : list Z) : Py (list Counter) :=
  mapP (λ '(tile, n), counts_getitem tile n) (zip tiles neighbors).

(** A candidate's summed count over all constraint distributions. *)
Definition total_count (counts : list Counter) (t : Z) : nat :=
  sum_list_with (λ c, counter_getitem c t) counts.

(** A method leaves the generator object as it found it, whether it returns
    or raises. *)
Definition preserves_self {A} (p : Py A) : Prop :=
  ∀ w, self (p w).2 = self w.

(** A method touches neither the object nor the random sources. *)
Definition read_only {A} (p : Py A) : Prop :=
  ∀ w, (p w).2 = w.

(** Positions compared first coordinate first: the order in which
    [product] lists them. *)
Definition lex_lt (a b : Z * Z) : Prop :=
  a.1 < b.1 ∨ (a.1 = b.1 ∧ a.2 < b.2).

(** The offset that direction [d] stands for: the [d]-th entry of
    [adjacent_neighbors + diagonal_neighbors]. *)
Definition neighbor_offset (d : Z) : option (Z * Z) :=
  (list_to_map (enumerate (adjacent_neighbors ++ diagonal_neighbors))
     : gmap Z (Z * Z)) !! d.

(** Direction [d] of the tile placed at [pos] points at [cell]. *)
Definition points_at (pos : Z * Z) (d : Z) (cell : Z * Z) : Prop :=
  ∃ off, neighbor_offset d = Some off ∧ _tuple_sum pos off = cell.

(** [counts[t][d][t']] *)
Definition counts_get (counts : Counts) (t d t' : Z) : Result nat :=
  dirs <~ list_getitem counts t ;;
  c <~ dict_getitem dirs d ;;
  Ok (counter_getitem c t').

(** Position [p] holds tile [t] and its neighbour in direction [d] is in the
    mapping and holds tile [t']. *)
Definition observed (m : Mapping) (t d t' : Z) (p : Z * Z) : Prop :=
  cells m !! p = Some t ∧
  (neighbor_offset d ≫= λ off, cells m !! _tuple_sum off p) = Some t'.

Global Instance observed_dec m t d t' p : Decision (observed m t d t' p).
Proof. unfold observed. apply _. Defined.

(** The count stored under list index [j], direction [d], tile [t']. *)
Definition stored (counts : Counts) (j : nat) (d t' : Z) : nat :=
  match counts !! j with
  | Some dirs =>
    match dirs !! d with
    | Some c => counter_getitem c t'
    | None => 0%nat
    end
  | None => 0%nat
  end.

(** Every entry of the table has the eight direction keys. *)
Definition well_formed (counts : Counts) : Prop :=
  Forall (λ dirs : gmap Z Counter, ∀ d, 0 ≤ d < 8 → is_Some (dirs !! d)) counts.

(** How often the inner loop at position [uv] sees tile [t'] in direction
    [d], over a list of numbered offsets. *)
Definition hits (m : Mapping) (uv : Z * Z) (d t' : Z) (l : list (Z * (Z * Z))) : nat :=
  length (filter (λ ni, ni.1 = d ∧ cells m !! _tuple_sum ni.2 uv = Some t') l).

(** According to the table of the generator in [w], tile [t] was seen as
    the neighbour of tile [s] in direction [p]. *)
Definition seen_next (w : World) (s p t : Z) : Prop :=
  ∃ c, (counts_getitem s p w).1 = Ok c ∧ t ∈ dom c.

(** In the partial mapping [m] every cell whose neighbour at offset [n]
    comes earlier in the scan holds a tile seen next to that neighbour's
    tile, in the direction from the neighbour to the cell. *)
Definition backward_consistent (w : World) (m : gmap (Z * Z) Z) : Prop :=
  ∀ a n s t p,
    n ∈ adjacent_neighbors → lex_lt (_tuple_sum a n) a →
    m !! a = Some t → m !! _tuple_sum a n = Some s →
    inverse_neighbor !! n = Some p →
    seen_next w s p t.

(** ** A training mapping to run on

    Two columns of tiles, 0 on the left and 1 on the right. *)

Definition ab_mapping : Mapping :=
  MkMapping 2 2 (list_to_map [((0, 0), 0); ((1, 0), 1); ((0, 1), 0); ((1, 1), 1)]).

Definition generator_of (m : Mapping) (n : Z) : TiledImageGenerator :=
  match __init__ m n with
  | Ok g => g
  | Raise _ => MkGenerator m n []
  end.

Definition ab_world (np py : list nat) : World :=
  MkWorld (generator_of ab_mapping 2) np py.

(** A second training mapping: every cell holds tile 0. *)
Definition flat_mapping : Mapping :=
  MkMapping 2 2 (list_to_map [((0, 0), 0); ((1, 0), 0); ((0, 1), 0); ((1, 1), 0)]).

Definition flat_world (np py : list nat) : World :=
  MkWorld (generator_of flat_mapping 1) np py.

(** An image of two vertical stripes, 32 by 32 pixels: a crop is told by
    the stripe its left edge lies in. *)
Definition stripes : Processor.Image (Tile := Z) :=
  Processor.MkImage (32, 32) (λ b, b.1.1.1 `div` 16).

Definition stripes_processor : Processor.TiledImageProcessor (Tile := Z) :=
  Processor.MkProcessor 16 16 stripes 32 32 2 2 [0; 1] 2.

(** * Properties *)

(** ** Reading the frequency tables *)

Section monad_facts.
Context {A B : Type}.

Lemma bind_ok (m : Py A) (k : A → Py B) w a w' :
  m w = (Ok a, w') → bind m k w = k a w'.
Proof. unfold bind. by intros ->. Qed.

Lemma bind_raise (m : Py A) (k : A → Py B) w e w' :
  m w = (Raise e, w') → bind m k w = (Raise e, w').
Proof. unfold bind. by intros ->. Qed.

Lemma bind_inv (m : Py A) (k : A → Py B) w b w' :
  bind m k w = (Ok b, w') →
  ∃ a w1, m w = (Ok a, w1) ∧ k a w1 = (Ok b, w').
Proof.
  unfold bind. destruct (m w) as [[a|e] w1]; [eauto | discriminate].
Qed.

Lemma preserves_self_bind (m : Py A) (k : A → Py B) :
  preserves_self m → (∀ a, preserves_self (k a)) → preserves_self (bind m k).
Proof.
  intros Hm Hk w. unfold bind. specialize (Hm w).
  destruct (m w) as [[a|e] w1]; simpl in *; [|done].
  by rewrite Hk.
Qed.

Lemma read_only_bind (m : Py A) (k : A → Py B) :
  read_only m → (∀ a, read_only (k a)) → read_only (bind m k).
Proof.
  intros Hm Hk w. unfold bind. specialize (Hm w).
  destruct (m w) as [[a|e] w1]; simpl in *; subst; [|done].
  apply Hk.
Qed.
End monad_facts.

Lemma read_only_preserves {A} (p : Py A) : read_only p → preserves_self p.
Proof. intros H w. by rewrite H. Qed.

Lemma read_only_ret {A} (a : A) : read_only (ret a).
Proof. done. Qed.

Lemma read_only_raise {A} e : read_only (@raise A e).
Proof. done. Qed.

Lemma read_only_lift {A} (r : Result A) : read_only (lift r).
Proof. done. Qed.

Lemma read_only_get_counts : read_only get_counts.
Proof. done. Qed.

Lemma read_only_counts_getitem tile n : read_only (counts_getitem tile n).
Proof.
  unfold counts_getitem.
  apply read_only_bind; [apply read_only_get_counts|]. intros counts.
  apply read_only_bind; [apply read_only_lift|]. intros d.
  apply read_only_lift.
Qed.

Lemma read_only_mapP {A B} (f : A → Py B) l :
  (∀ a, read_only (f a)) → read_only (mapP f l).
Proof.
  intros Hf. induction l as [|a l IH]; simpl; [apply read_only_ret|].
  apply read_only_bind; [apply Hf|]. intros b.
  apply read_only_bind; [apply IH|]. intros bs. apply read_only_ret.
Qed.

Lemma read_only_constraint_counts tiles neighbors :
  read_only (constraint_counts tiles neighbors).
Proof.
  apply read_only_mapP. intros [tile n]. apply read_only_counts_getitem.
Qed.

Lemma constraint_counts_run tiles neighbors w :
  constraint_counts tiles neighbors w = ((constraint_counts tiles neighbors w).1, w).
Proof.
  rewrite <-(read_only_constraint_counts tiles neighbors w) at 3.
  by destruct (constraint_counts tiles neighbors w).
Qed.

Lemma mapP_length {A B} (f : A → Py B) l w bs w' :
  mapP f l w = (Ok bs, w') → length bs = length l.
Proof.
  revert w bs w'. induction l as [|a l IH]; intros w bs w'; simpl.
  - unfold ret. by intros [= <- _].
  - intros H. apply bind_inv in H as (b & w1 & _ & H).
    apply bind_inv in H as (bs' & w2 & H & Hr).
    unfold ret in Hr. injection Hr as <- _. simpl. f_equal. eauto.
Qed.

(** ** The intersection of the candidate sets *)

Lemma list_getitem_0 {A} (x : A) l : list_getitem (x :: l) 0 = Ok x.
Proof.
  unfold list_getitem, norm_index. simpl length.
  replace (0 <? 0) with false by done.
  replace (0 <? 0) with false by done. simpl orb.
  destruct (Z.leb_spec (Z.of_nat (S (length l))) 0) as [Hle|_]; [lia|done].
Qed.

Lemma list_getitem_nil {A} i : list_getitem (@nil A) i = Raise IndexError.
Proof.
  unfold list_getitem, norm_index. simpl length. change (Z.of_nat 0) with 0.
  destruct (Z.ltb_spec i 0); simpl.
  - destruct (Z.ltb_spec (i + 0) 0); [done | lia].
  - destruct (Z.ltb_spec i 0); [lia|].
    destruct (Z.leb_spec 0 i); [done | lia].
Qed.

Lemma elem_of_foldl_intersection (s : gset Z) (l : list Counter) t :
  t ∈ foldl (λ s c, s ∩ dom c) s l ↔ t ∈ s ∧ ∀ c, c ∈ l → t ∈ dom c.
Proof.
  revert s. induction l as [|c l IH]; intros s; simpl.
  - split; [|tauto]. intros H. split; [done|]. intros c Hc. by apply elem_of_nil in Hc.
  - rewrite IH, elem_of_intersection. split.
    + intros [[Hs Hc] Hl]. split; [done|]. intros c' Hc'.
      apply elem_of_cons in Hc' as [->|Hc']; auto.
    + intros [Hs Hl]. split; [split; [done|]|].
      * apply Hl. left.
      * intros c' Hc'. apply Hl. by right.
Qed.

Lemma valid_tiles_spec (counts : list Counter) :
  counts ≠ [] →
  ∃ valid, valid_tiles counts = Ok valid ∧
           ∀ t, t ∈ valid ↔ ∀ c, c ∈ counts → t ∈ dom c.
Proof.
  destruct counts as [|c0 counts]; [done|]. intros _.
  unfold valid_tiles. rewrite list_getitem_0. simpl bindR.
  exists (foldl (λ s c, s ∩ dom c) (dom c0) (c0 :: counts)).
  split; [done|]. intros t. rewrite elem_of_foldl_intersection.
  split; [tauto|]. intros H. split; [|done]. apply H. left.
Qed.

Lemma add_count_fold t (counts : list Counter) (vtc : Counter) a :
  vtc !! t = Some a →
  foldR (add_count t) vtc counts
  = Ok (<[t := (a + total_count counts t)%nat]> vtc).
Proof.
  revert vtc a. induction counts as [|c counts IH]; intros vtc a Ha; simpl.
  - f_equal. rewrite Nat.add_0_r. symmetry. by apply insert_id.
  - unfold add_count at 1, dict_getitem. rewrite Ha. simpl bindR.
    rewrite (IH _ (a + counter_getitem c t)%nat) by apply lookup_insert_eq.
    f_equal. rewrite insert_insert_eq. f_equal. lia.
Qed.

Lemma valid_tile_counts_fold (counts : list Counter) (l : list Z) (vtc : Counter) :
  NoDup l →
  (∀ t, t ∈ l → vtc !! t = Some 0%nat) →
  ∃ vtc', foldR (λ vtc t, foldR (add_count t) vtc counts) vtc l = Ok vtc' ∧
          ∀ t, vtc' !! t = if decide (t ∈ l) then Some (total_count counts t)
                           else vtc !! t.
Proof.
  revert vtc. induction l as [|x l IH]; intros vtc Hnd Hz; simpl.
  - exists vtc. split; [done|]. intros t. destruct (decide (t ∈ [])) as [H|_]; [|done].
    by apply elem_of_nil in H.
  - apply NoDup_cons in Hnd as [Hx Hnd].
    rewrite (add_count_fold x counts vtc 0) by (apply Hz; left).
    rewrite Nat.add_0_l. simpl bindR.
    destruct (IH (<[x := total_count counts x]> vtc) Hnd) as (vtc' & Hf & Hl).
    { intros t Ht. rewrite lookup_insert_ne by (intros ->; done). apply Hz. by right. }
    rewrite Hf.
    exists vtc'. split; [done|]. intros t. rewrite Hl.
    destruct (decide (t ∈ l)) as [Ht|Ht].
    + rewrite decide_True by (by right). done.
    + destruct (decide (t = x)) as [->|Hne].
      * rewrite decide_True by left. by rewrite lookup_insert_eq.
      * rewrite decide_False by (rewrite elem_of_cons; tauto).
        by rewrite lookup_insert_ne.
Qed.

Lemma valid_tile_counts_spec (valid : gset Z) (counts : list Counter) :
  ∃ vtc, valid_tile_counts valid counts = Ok vtc ∧
         ∀ t, vtc !! t = if decide (t ∈ valid) then Some (total_count counts t)
                         else None.
Proof.
  unfold valid_tile_counts.
  destruct (valid_tile_counts_fold counts (elements valid) (gset_to_gmap 0%nat valid))
    as (vtc & Hv & Hl).
  - apply NoDup_elements.
  - intros t Ht. apply lookup_gset_to_gmap_Some. split; [|done].
    by apply elem_of_elements.
  - exists vtc. split; [done|]. intros t. rewrite Hl.
    destruct (decide (t ∈ elements valid)) as [Ht|Ht];
      rewrite elem_of_elements in Ht.
    + by rewrite decide_True.
    + rewrite decide_False by done. by apply lookup_gset_to_gmap_None.
Qed.

(** ** The sampler *)

Lemma sample_elem_of ids frequencies w t w' :
  sample ids frequencies w = (Ok t, w') → t ∈ ids.
Proof.
  unfold sample. destruct (existsb _ _); [discriminate|].
  destruct ids as [|i ids]; [discriminate|].
  destruct (negb _); [discriminate|].
  intros H. apply bind_inv in H as (k & w1 & _ & H).
  destruct ((i :: ids) !! k) as [x|] eqn:Hk; [|discriminate].
  unfold ret in H. injection H as <- _. by eapply list_elem_of_lookup_2.
Qed.

Lemma elem_of_keys (c : Counter) t : t ∈ keys c ↔ t ∈ dom c.
Proof.
  unfold keys. rewrite list_elem_of_fmap, elem_of_dom. split.
  - intros ([k v] & -> & H). apply elem_of_map_to_list in H. by exists v.
  - intros [v H]. exists (t, v). split; [done|]. by apply elem_of_map_to_list.
Qed.

Lemma preserves_self_sample ids frequencies : preserves_self (sample ids frequencies).
Proof.
  intros w. unfold sample. destruct (existsb _ _); [done|].
  destruct ids as [|i ids]; [done|]. destruct (negb _); [done|].
  unfold bind, draw_np. destruct (pick _ _) as [k t]. simpl.
  by destruct ((i :: ids) !! k).
Qed.

(** ** [coupled_markov_chain] *)

Lemma coupled_markov_chain_run w tiles neighbors counts valid vtc :
  (constraint_counts tiles neighbors w).1 = Ok counts →
  valid_tiles counts = Ok valid →
  valid_tile_counts valid counts = Ok vtc →
  coupled_markov_chain tiles neighbors w
  = if decide (vtc = ∅) then (Raise AssertionError, w)
    else sample (keys vtc) (values vtc) w.
Proof.
  intros Hc Hv Hvtc. unfold coupled_markov_chain.
  fold (constraint_counts tiles neighbors).
  rewrite (bind_ok _ _ w counts w)
    by (by rewrite constraint_counts_run, Hc).
  unfold lift at 1. rewrite (bind_ok _ _ w valid w) by (by rewrite Hv).
  unfold lift at 1. rewrite (bind_ok _ _ w vtc w) by (by rewrite Hvtc).
  by destruct (decide (vtc = ∅)).
Qed.

Lemma constraint_counts_nonempty w tiles neighbors counts :
  zip tiles neighbors ≠ [] →
  (constraint_counts tiles neighbors w).1 = Ok counts →
  counts ≠ [].
Proof.
  intros Hz Hc. rewrite constraint_counts_run in Hc. simpl in Hc.
  intros ->.
  assert (H : constraint_counts tiles neighbors w = (Ok [], w))
    by (by rewrite constraint_counts_run, Hc).
  apply mapP_length in H. destruct (zip tiles neighbors); [done|discriminate].
Qed.

Lemma valid_tile_counts_dom (valid : gset Z) counts (vtc : Counter) :
  valid_tile_counts valid counts = Ok vtc → dom vtc = valid.
Proof.
  intros H. destruct (valid_tile_counts_spec valid counts) as (vtc' & H' & Hl).
  rewrite H in H'. injection H' as <-.
  apply set_eq. intros t. rewrite elem_of_dom, Hl.
  destruct (decide (t ∈ valid)); [by split; eauto|].
  split; [by intros [? ?]|done].
Qed.

Lemma mapP_cons_inv {A B} (f : A → Py B) a l w bs :
  (∀ a, read_only (f a)) →
  (mapP f (a :: l) w).1 = Ok bs →
  ∃ b bs', bs = b :: bs' ∧ (f a w).1 = Ok b ∧ (mapP f l w).1 = Ok bs'.
Proof.
  intros Hf. simpl. unfold bind at 1.
  pose proof (Hf a w) as Ha. destruct (f a w) as [[b|e] w1]; simpl in *; subst;
    [|discriminate].
  unfold bind. pose proof (read_only_mapP f l Hf w) as Hl.
  destruct (mapP f l w) as [[bs'|e] w1]; simpl in *; subst; [|discriminate].
  intros [= <-]. eauto.
Qed.

Lemma mapP_cons_ok {A B} (f : A → Py B) a l w b bs :
  (∀ a, read_only (f a)) →
  (f a w).1 = Ok b → (mapP f l w).1 = Ok bs →
  (mapP f (a :: l) w).1 = Ok (b :: bs).
Proof.
  intros Hf Ha Hl. simpl. unfold bind at 1.
  pose proof (Hf a w) as Ha'. destruct (f a w) as [[b'|e] w1]; simpl in *; subst;
    [|discriminate].
  injection Ha as ->. unfold bind.
  pose proof (read_only_mapP f l Hf w) as Hl'.
  destruct (mapP f l w) as [[bs'|e] w1]; simpl in *; subst; [|discriminate].
  by injection Hl as ->.
Qed.

Lemma mapP_Permutation {A B} (f : A → Py B) l l' w :
  (∀ a, read_only (f a)) →
  l ≡ₚ l' →
  ∀ bs, (mapP f l w).1 = Ok bs →
        ∃ bs', (mapP f l' w).1 = Ok bs' ∧ bs ≡ₚ bs'.
Proof.
  intros Hf. induction 1 as [|a l l' Hp IH|a a' l|l l' l'' Hp IH Hp' IH'];
    intros bs Hbs.
  - eauto.
  - apply mapP_cons_inv in Hbs as (b & bs0 & -> & Ha & Hl); [|done].
    destruct (IH _ Hl) as (bs1 & Hl' & Hp1).
    exists (b :: bs1). split; [by apply mapP_cons_ok|by constructor].
  - apply mapP_cons_inv in Hbs as (b' & bs0 & -> & Ha' & Hl); [|done].
    apply mapP_cons_inv in Hl as (b & bs1 & -> & Ha & Hl); [|done].
    exists (b :: b' :: bs1). split; [|by constructor].
    apply mapP_cons_ok; [done..|]. by apply mapP_cons_ok.
  - destruct (IH _ Hbs) as (bs1 & H1 & Hp1).
    destruct (IH' _ H1) as (bs2 & H2 & Hp2).
    exists bs2. split; [done|by etrans].
Qed.

(** C1: for a non-empty list of constraints whose distributions exist,
    [coupled_markov_chain] computes as candidate set the intersection of the
    key sets of those distributions and as weight of each candidate the sum
    of its counts over all of them; it raises when no candidate is left and
    otherwise hands exactly these candidates and weights to the sampler; a
    returned tile is in the intersection. *)
Theorem coupled_markov_chain_intersection w tiles neighbors counts :
  zip tiles neighbors ≠ [] →
  (constraint_counts tiles neighbors w).1 = Ok counts →
  ∃ valid vtc,
    valid_tiles counts = Ok valid ∧
    valid_tile_counts valid counts = Ok vtc ∧
    (∀ t, t ∈ valid ↔ ∀ c, c ∈ counts → t ∈ dom c) ∧
    dom vtc = valid ∧
    (∀ t, t ∈ valid → vtc !! t = Some (total_count counts t)) ∧
    coupled_markov_chain tiles neighbors w
    = (if decide (vtc = ∅) then (Raise AssertionError, w)
       else sample (keys vtc) (values vtc) w) ∧
    (∀ t w', coupled_markov_chain tiles neighbors w = (Ok t, w') →
             t ∈ valid ∧ t ∈ keys vtc).
Proof.
  intros Hz Hc.
  pose proof (constraint_counts_nonempty _ _ _ _ Hz Hc) as Hne.
  destruct (valid_tiles_spec counts Hne) as (valid & Hv & Hvalid).
  destruct (valid_tile_counts_spec valid counts) as (vtc & Hvtc & Hl).
  exists valid, vtc. split_and!; try done.
  - by eapply valid_tile_counts_dom.
  - intros t Ht. by rewrite Hl, decide_True.
  - by apply coupled_markov_chain_run with (counts := counts) (valid := valid).
  - intros t w'. rewrite (coupled_markov_chain_run _ _ _ _ _ _ Hc Hv Hvtc).
    destruct (decide (vtc = ∅)); [discriminate|].
    intros Hs%sample_elem_of. split; [|done]. apply elem_of_keys in Hs.
    by rewrite (valid_tile_counts_dom _ _ _ Hvtc) in Hs.
Qed.

Lemma coupled_markov_chain_intersection_witness :
  ∃ valid vtc,
    valid_tiles [{[1 := 2%nat]}; {[1 := 1%nat]}] = Ok valid ∧
    valid_tile_counts valid [{[1 := 2%nat]}; {[1 := 1%nat]}] = Ok vtc ∧
    (∀ t, t ∈ valid ↔
          ∀ c : Counter, c ∈ [{[1 := 2%nat]}; {[1 := 1%nat]}] → t ∈ dom c) ∧
    dom vtc = valid ∧
    (∀ t, t ∈ valid →
          vtc !! t = Some (total_count [{[1 := 2%nat]}; {[1 := 1%nat]}] t)) ∧
    coupled_markov_chain [0; 1] [0; 1] (ab_world [] [])
    = (if decide (vtc = ∅) then (Raise AssertionError, ab_world [] [])
       else sample (keys vtc) (values vtc) (ab_world [] [])) ∧
    (∀ t w', coupled_markov_chain [0; 1] [0; 1] (ab_world [] []) = (Ok t, w') →
             t ∈ valid ∧ t ∈ keys vtc).
Proof.
  apply (coupled_markov_chain_intersection (ab_world [] []) [0; 1] [0; 1]).
  - discriminate.
  - vm_compute. reflexivity.
Defined.

(** C2: when no tile id is a key of every constraint distribution,
    [coupled_markov_chain] raises (its assertion fails) and returns no
    tile. *)
Theorem coupled_markov_chain_contradiction w tiles neighbors counts :
  zip tiles neighbors ≠ [] →
  (constraint_counts tiles neighbors w).1 = Ok counts →
  (∀ t, ¬ ∀ c, c ∈ counts → t ∈ dom c) →
  coupled_markov_chain tiles neighbors w = (Raise AssertionError, w).
Proof.
  intros Hz Hc Hempty.
  pose proof (constraint_counts_nonempty _ _ _ _ Hz Hc) as Hne.
  destruct (valid_tiles_spec counts Hne) as (valid & Hv & Hvalid).
  destruct (valid_tile_counts_spec valid counts) as (vtc & Hvtc & Hl).
  rewrite (coupled_markov_chain_run _ _ _ _ _ _ Hc Hv Hvtc).
  rewrite decide_True; [done|]. apply map_empty. intros t. rewrite Hl.
  apply decide_False. rewrite Hvalid. apply Hempty.
Qed.

Lemma coupled_markov_chain_contradiction_witness :
  coupled_markov_chain [0; 1] [1; 0] (ab_world [3%nat] [])
  = (Raise AssertionError, ab_world [3%nat] []).
Proof.
  apply (coupled_markov_chain_contradiction _ _ _ [{[0 := 1%nat]}; ∅]).
  - discriminate.
  - vm_compute. reflexivity.
  - intros t H. specialize (H ∅). rewrite dom_empty_L in H.
    apply (not_elem_of_empty (C := gset Z) t), H. right. left.
Defined.

(** C8, as the claim has it, fails: asked to resolve a cell from an empty
    constraint list, [coupled_markov_chain] raises [IndexError] at
    [counts[0]]; no tile is drawn. *)
Lemma coupled_markov_chain_no_fallback_counterexample :
  coupled_markov_chain [] [] (ab_world [4%nat] [1%nat])
  = (Raise IndexError, ab_world [4%nat] [1%nat]) ∧
  ¬ ∃ t w', coupled_markov_chain [] [] (ab_world [4%nat] [1%nat]) = (Ok t, w').
Proof.
  assert (H : coupled_markov_chain [] [] (ab_world [4%nat] [1%nat])
              = (Raise IndexError, ab_world [4%nat] [1%nat]))
    by (vm_compute; reflexivity).
  split; [done|]. intros (t & w' & Ht). rewrite H in Ht. discriminate.
Qed.

(** C8, amended: [coupled_markov_chain] given no constraint (one of its two
    lists is empty) raises [IndexError] and returns no tile, whatever the
    table and the random sources hold, and leaves them as they were: there
    is no fallback draw. *)
Theorem coupled_markov_chain_no_constraints w tiles neighbors :
  zip tiles neighbors = [] →
  coupled_markov_chain tiles neighbors w = (Raise IndexError, w) ∧
  ¬ ∃ t w', coupled_markov_chain tiles neighbors w = (Ok t, w').
Proof.
  intros Hz.
  assert (H : coupled_markov_chain tiles neighbors w = (Raise IndexError, w)).
  { unfold coupled_markov_chain. rewrite Hz. simpl mapP.
    unfold ret, bind, lift, valid_tiles. by rewrite list_getitem_nil. }
  split; [done|]. intros (t & w' & Ht). rewrite H in Ht. discriminate.
Qed.

Lemma coupled_markov_chain_no_constraints_witness :
  coupled_markov_chain [] [3] (ab_world [2%nat] [])
  = (Raise IndexError, ab_world [2%nat] []) ∧
  ¬ ∃ t w', coupled_markov_chain [] [3] (ab_world [2%nat] []) = (Ok t, w').
Proof.
  apply (coupled_markov_chain_no_constraints (ab_world [2%nat] []) [] [3]).
  reflexivity.
Defined.

(** C10: permuting the constraints changes neither the candidate set nor
    the summed count of any candidate. *)
Theorem coupled_markov_chain_permutation
    w tiles neighbors tiles' neighbors' counts valid vtc :
  zip tiles neighbors ≡ₚ zip tiles' neighbors' →
  (constraint_counts tiles neighbors w).1 = Ok counts →
  valid_tiles counts = Ok valid →
  valid_tile_counts valid counts = Ok vtc →
  ∃ counts',
    (constraint_counts tiles' neighbors' w).1 = Ok counts' ∧
    valid_tiles counts' = Ok valid ∧
    valid_tile_counts valid counts' = Ok vtc ∧
    ∀ t, total_count counts' t = total_count counts t.
Proof.
  intros Hp Hc Hv Hvtc.
  destruct (mapP_Permutation (λ '(tile, n), counts_getitem tile n) _ _ w
              ltac:(intros [??]; apply read_only_counts_getitem) Hp counts Hc)
    as (counts' & Hc' & Hpc).
  assert (Htot : ∀ t, total_count counts' t = total_count counts t).
  { intros t. unfold total_count. by rewrite Hpc. }
  assert (Hne : counts ≠ []).
  { intros ->. unfold valid_tiles in Hv. by rewrite list_getitem_nil in Hv. }
  assert (Hne' : counts' ≠ []).
  { intros ->. by apply Permutation_nil_r in Hpc. }
  destruct (valid_tiles_spec counts Hne) as (valid0 & Hv0 & Hvalid).
  rewrite Hv in Hv0. injection Hv0 as <-.
  destruct (valid_tiles_spec counts' Hne') as (valid' & Hv' & Hvalid').
  assert (valid' = valid) as ->.
  { apply set_eq. intros t. rewrite Hvalid, Hvalid'.
    split; intros H c Hin; apply H; [by rewrite <-Hpc | by rewrite Hpc]. }
  exists counts'. split_and!; try done.
  destruct (valid_tile_counts_spec valid counts) as (vtc0 & H0 & Hl).
  rewrite Hvtc in H0. injection H0 as <-.
  destruct (valid_tile_counts_spec valid counts') as (vtc' & H' & Hl').
  rewrite H'. f_equal. apply map_eq. intros t. rewrite Hl, Hl'.
  destruct (decide (t ∈ valid)); [|done]. by rewrite Htot.
Qed.

Lemma coupled_markov_chain_permutation_witness :
  ∃ counts',
    (constraint_counts [1; 0] [1; 0] (ab_world [] [])).1 = Ok counts' ∧
    valid_tiles counts' = Ok {[ 1 ]} ∧
    valid_tile_counts {[ 1 ]} counts' = Ok {[ 1 := 3%nat ]} ∧
    ∀ t, total_count counts' t
         = total_count [{[1 := 2%nat]}; {[1 := 1%nat]}] t.
Proof.
  apply (coupled_markov_chain_permutation (ab_world [] []) [0; 1] [0; 1]).
  - simpl. apply perm_swap.
  - vm_compute. reflexivity.
  - vm_compute. reflexivity.
  - vm_compute. reflexivity.
Defined.

Lemma pick_lt tape k : (0 < k)%nat → ((pick tape k).1 < k)%nat.
Proof.
  intros Hk. destruct tape as [|x tape]; simpl; [done|].
  by apply Nat.mod_upper_bound, Nat.neq_0_lt_0.
Qed.

Lemma sample_singleton t k w :
  (0 < k)%nat →
  sample [t] [k] w = (Ok t, MkWorld (self w) (pick (np_random w) 1).2 (py_random w)).
Proof.
  intros Hk. unfold sample. simpl existsb.
  destruct k as [|k]; [lia|]. simpl.
  unfold bind, draw_np. pose proof (pick_lt (np_random w) 1 ltac:(lia)) as Hlt.
  destruct (pick (np_random w) 1) as [i tape]. simpl in *.
  by replace i with 0%nat by lia.
Qed.

(** C6: a distribution with exactly one tile id, of positive count, always
    yields that id, whatever the random sources hold. *)
Theorem wavefunction_single_option w tile neighbor_id c t :
  (counts_getitem tile neighbor_id w).1 = Ok c →
  dom c = {[ t ]} →
  (∀ k, c !! t = Some k → (0 < k)%nat) →
  (sample (keys c) (values c) w).1 = Ok t ∧
  (wavefunction tile neighbor_id w).1 = Ok t.
Proof.
  intros Hc Hdom Hpos.
  apply dom_singleton_inv_L in Hdom as [k ->].
  assert (Hk : (0 < k)%nat) by (apply Hpos, lookup_singleton_eq).
  assert (Hs : (sample (keys {[t := k]}) (values {[t := k]}) w).1 = Ok t).
  { unfold keys, values. rewrite map_to_list_singleton. simpl.
    by rewrite sample_singleton. }
  split; [done|]. unfold wavefunction.
  pose proof (read_only_counts_getitem tile neighbor_id w) as Hro.
  unfold bind. destruct (counts_getitem tile neighbor_id w) as [[c'|e] w1];
    simpl in *; [|discriminate].
  injection Hc as ->. subst w1.
  by destruct (sample _ _ w).
Qed.

Lemma wavefunction_single_option_witness :
  (sample (keys {[1 := 1%nat]}) (values {[1 := 1%nat]}) (ab_world [5%nat; 2%nat] [])).1
  = Ok 1 ∧
  (wavefunction 0 7 (ab_world [5%nat; 2%nat] [])).1 = Ok 1.
Proof.
  apply (wavefunction_single_option (ab_world [5%nat; 2%nat] []) 0 7 {[1 := 1%nat]} 1).
  - vm_compute. reflexivity.
  - vm_compute. reflexivity.
  - intros k Hk. rewrite lookup_singleton_eq in Hk. injection Hk as <-. lia.
Defined.

(** ** The frequency tables are only read *)

Lemma preserves_self_ret {A} (a : A) : preserves_self (ret a).
Proof. done. Qed.

Lemma preserves_self_raise {A} e : preserves_self (@raise A e).
Proof. done. Qed.

Lemma preserves_self_lift {A} (r : Result A) : preserves_self (lift r).
Proof. done. Qed.

Lemma preserves_self_get_n : preserves_self get_n.
Proof. done. Qed.

Lemma preserves_self_draw_py k : preserves_self (draw_py k).
Proof. intros w. unfold draw_py. by destruct (pick _ _). Qed.

Lemma preserves_self_random_choice {A} (l : list A) :
  preserves_self (random_choice l).
Proof.
  destruct l as [|x l]; [done|]. unfold random_choice.
  apply preserves_self_bind; [apply preserves_self_draw_py|].
  intros i. by destruct ((x :: l) !! i).
Qed.

Lemma preserves_self_foldP {A B} (f : A → B → Py A) a l :
  (∀ a b, preserves_self (f a b)) → preserves_self (foldP f a l).
Proof.
  intros Hf. revert a. induction l as [|b l IH]; intros a; simpl; [done|].
  apply preserves_self_bind; [apply Hf|]. intros a'. apply IH.
Qed.

Lemma preserves_self_wavefunction tile neighbor_id :
  preserves_self (wavefunction tile neighbor_id).
Proof.
  unfold wavefunction. apply preserves_self_bind.
  - apply read_only_preserves, read_only_counts_getitem.
  - intros c. apply preserves_self_sample.
Qed.

Lemma preserves_self_coupled_markov_chain tiles neighbors :
  preserves_self (coupled_markov_chain tiles neighbors).
Proof.
  unfold coupled_markov_chain. apply preserves_self_bind.
  - apply read_only_preserves, (read_only_constraint_counts tiles neighbors).
  - intros counts. apply preserves_self_bind; [apply preserves_self_lift|].
    intros valid. apply preserves_self_bind; [apply preserves_self_lift|].
    intros vtc. destruct (decide (vtc = ∅)); [done|apply preserves_self_sample].
Qed.

Lemma preserves_self_generate_step m hk : preserves_self (generate_step m hk).
Proof.
  unfold generate_step. destruct (m !! hk); [done|].
  apply preserves_self_bind; [apply preserves_self_lift|]. intros np.
  apply preserves_self_bind; [apply preserves_self_coupled_markov_chain|done].
Qed.

Lemma preserves_self_generate row col : preserves_self (generate row col).
Proof.
  unfold generate. apply preserves_self_bind; [apply preserves_self_get_n|].
  intros n. apply preserves_self_bind; [apply preserves_self_random_choice|].
  intros tile. apply preserves_self_bind; [|done].
  apply preserves_self_foldP. intros. apply preserves_self_generate_step.
Qed.

Lemma preserves_self_generate_2 : preserves_self generate_2.
Proof.
  unfold generate_2. apply preserves_self_bind; [apply preserves_self_get_n|].
  intros n. apply preserves_self_bind; [apply preserves_self_random_choice|].
  intros tile. apply preserves_self_bind; [apply preserves_self_wavefunction|].
  intros s. apply preserves_self_bind; [apply preserves_self_coupled_markov_chain|].
  intros x. apply preserves_self_bind; [apply preserves_self_coupled_markov_chain|].
  done.
Qed.

(** C9: [wavefunction], [coupled_markov_chain], [generate] and [generate_2]
    leave the frequency tables of the generator as they were, whether they
    return or raise. *)
Theorem generation_preserves_counts w :
  (∀ tile neighbor_id,
     self_counts (self (wavefunction tile neighbor_id w).2) = self_counts (self w)) ∧
  (∀ tiles neighbors,
     self_counts (self (coupled_markov_chain tiles neighbors w).2)
     = self_counts (self w)) ∧
  (∀ row col, self_counts (self (generate row col w).2) = self_counts (self w)) ∧
  self_counts (self (generate_2 w).2) = self_counts (self w).
Proof.
  split_and!; intros; f_equal.
  - apply preserves_self_wavefunction.
  - apply preserves_self_coupled_markov_chain.
  - apply preserves_self_generate.
  - apply preserves_self_generate_2.
Qed.

(** ** The scan order of [generate] *)

Lemma range_sorted n : StronglySorted Z.lt (range n).
Proof.
  unfold range. generalize 0 as m.
  remember (Z.to_nat n) as k eqn:Hk. revert n Hk.
  induction k as [|k IH]; intros n Hk m.
  - rewrite seqZ_nil by lia. constructor.
  - rewrite seqZ_cons by lia. constructor.
    + apply IH. lia.
    + apply Forall_forall. intros x Hx. apply elem_of_seqZ in Hx. lia.
Qed.

Lemma elem_of_range n x : x ∈ range n ↔ 0 ≤ x < n.
Proof. unfold range. rewrite elem_of_seqZ. lia. Qed.

Lemma elem_of_product {A B} (l : list A) (k : list B) a b :
  (a, b) ∈ product l k ↔ a ∈ l ∧ b ∈ k.
Proof.
  unfold product. rewrite list_elem_of_In, in_flat_map. split.
  - intros (x & Hx & Hin). apply in_map_iff in Hin as (y & [= <- <-] & Hy).
    by rewrite !list_elem_of_In.
  - intros [Ha Hb]. exists a. rewrite <-list_elem_of_In. split; [done|].
    apply in_map_iff. exists b. by rewrite <-list_elem_of_In.
Qed.

Lemma product_sorted (l k : list Z) :
  StronglySorted Z.lt l → StronglySorted Z.lt k →
  StronglySorted lex_lt (product l k).
Proof.
  intros Hl Hk. induction Hl as [|x l Hl IH Hx]; [constructor|].
  change (product (x :: l) k) with (((λ y, (x, y)) <$> k) ++ product l k).
  apply StronglySorted_app. split_and!.
  - intros p [a b] Hp Hab. apply list_elem_of_fmap in Hp as (y & -> & Hy).
    apply elem_of_product in Hab as [Ha Hb]. left. simpl.
    by eapply Forall_forall in Hx.
  - eapply StronglySorted_fmap; [|done]. intros y y' Hy. right. by simpl.
  - done.
Qed.

Lemma sorted_before_in_prefix (pre post : list (Z * Z)) a b :
  StronglySorted lex_lt (pre ++ a :: post) →
  b ∈ pre ++ a :: post → lex_lt b a → b ∈ pre.
Proof.
  intros Hs Hb Hlt.
  apply StronglySorted_app in Hs as (_ & _ & Hs).
  apply StronglySorted_cons in Hs as [Hpost _].
  apply elem_of_app in Hb as [Hb|Hb]; [done|].
  apply elem_of_cons in Hb as [->|Hb].
  - unfold lex_lt in Hlt. lia.
  - eapply Forall_forall in Hpost; [|done]. unfold lex_lt in *. lia.
Qed.

Lemma scan_predecessor row col pre post h k h' k' :
  product (range row) (range col) = pre ++ (h, k) :: post →
  0 ≤ h' → 0 ≤ k' < col → lex_lt (h', k') (h, k) →
  (h', k') ∈ pre.
Proof.
  intros Hscan Hh' Hk' Hlt.
  assert (Hin : (h, k) ∈ product (range row) (range col)).
  { rewrite Hscan. apply elem_of_app. right. left. }
  apply elem_of_product in Hin as [Hh Hk]. apply elem_of_range in Hh, Hk.
  apply (sorted_before_in_prefix pre post (h, k)); [| |done].
  - rewrite <-Hscan. apply product_sorted; apply range_sorted.
  - rewrite <-Hscan. apply elem_of_product. rewrite !elem_of_range.
    unfold lex_lt in Hlt. simpl in Hlt. lia.
Qed.

Lemma generate_step_dom m hk w m' w' :
  generate_step m hk w = (Ok m', w') → dom m' = dom m ∪ {[ hk ]}.
Proof.
  unfold generate_step. destruct (m !! hk) as [t|] eqn:Hm.
  - unfold ret. intros [= <- _].
    assert (Hin : hk ∈ dom m) by (apply elem_of_dom; eauto).
    apply set_eq. intros x. rewrite elem_of_union, elem_of_singleton.
    split; [tauto|]. by intros [?| ->].
  - intros H. apply bind_inv in H as (np & w1 & _ & H).
    apply bind_inv in H as (t & w2 & _ & H). unfold ret in H.
    injection H as <- _. rewrite dom_insert_L. apply union_comm_L.
Qed.

Lemma foldP_generate_step_dom l m w m' w' :
  foldP generate_step m l w = (Ok m', w') → dom m' = dom m ∪ list_to_set l.
Proof.
  revert m w. induction l as [|hk l IH]; intros m w; simpl.
  - unfold ret. intros [= <- _]. by rewrite union_empty_r_L.
  - intros H. apply bind_inv in H as (m1 & w1 & Hs & H).
    apply generate_step_dom in Hs. apply IH in H.
    by rewrite H, Hs, (assoc_L (∪)).
Qed.

Lemma adjacent_neighbors_inverse :
  Forall (λ n, is_Some (inverse_neighbor !! n)) adjacent_neighbors.
Proof. repeat constructor; vm_compute; eauto. Qed.

Lemma gather_fold m hk l nt ps :
  Forall (λ n, is_Some (inverse_neighbor !! n)) l →
  length nt = length ps →
  ∃ nt' ps',
    foldR (gather_step m hk) (nt, ps) l = Ok (nt', ps') ∧
    length nt' = length ps' ∧
    (length nt ≤ length nt')%nat ∧
    ((∃ n, n ∈ l ∧ is_Some (m !! _tuple_sum hk n)) → (length nt < length nt')%nat).
Proof.
  intros Hl. revert nt ps. induction Hl as [|n l [p Hp] Hl IH]; intros nt ps Hlen.
  - exists nt, ps. split_and!; [done..|]. intros (n & Hn & _).
    by apply elem_of_nil in Hn.
  - simpl. destruct (m !! _tuple_sum hk n) as [t|] eqn:Hm.
    + unfold dict_getitem. rewrite Hp. simpl bindR.
      destruct (IH (nt ++ [t]) (ps ++ [p])) as (nt' & ps' & Hf & Hlen' & Hle & _).
      { rewrite !length_app. simpl. lia. }
      exists nt', ps'. rewrite length_app in Hle. simpl in Hle.
      split_and!; [done..|lia|lia].
    + simpl bindR.
      destruct (IH nt ps Hlen) as (nt' & ps' & Hf & Hlen' & Hle & Hlt).
      exists nt', ps'. split_and!; [done..|].
      intros (n' & Hn' & Hs). apply Hlt.
      apply elem_of_cons in Hn' as [->|Hn'].
      * rewrite Hm in Hs. by destruct Hs.
      * eauto.
Qed.

Lemma gather_spec m hk :
  ∃ neighbor_tiles positions,
    gather m hk = Ok (neighbor_tiles, positions) ∧
    length neighbor_tiles = length positions ∧
    ((∃ n, n ∈ adjacent_neighbors ∧ is_Some (m !! _tuple_sum hk n)) →
     neighbor_tiles ≠ []).
Proof.
  destruct (gather_fold m hk adjacent_neighbors [] [] adjacent_neighbors_inverse)
    as (nt & ps & Hg & Hlen & _ & Hlt); [done|].
  exists nt, ps. split_and!; [done..|].
  intros H%Hlt ->. simpl in H. lia.
Qed.

(** C7: when the scan of [generate] reaches a cell other than (0,0), the
    cell is still empty and at least one of its orthogonal neighbours is
    already placed, so the lists gathered for it are not empty. *)
Theorem generate_neighbors_available row col pre h k post tile w m w' :
  product (range row) (range col) = pre ++ (h, k) :: post →
  foldP generate_step {[ (0, 0) := tile ]} pre w = (Ok m, w') →
  (h, k) ≠ (0, 0) →
  m !! (h, k) = None ∧
  ∃ neighbor_tiles positions,
    gather m (h, k) = Ok (neighbor_tiles, positions) ∧
    neighbor_tiles ≠ [] ∧
    length positions = length neighbor_tiles.
Proof.
  intros Hscan Hfold Hne.
  apply foldP_generate_step_dom in Hfold. rewrite dom_singleton_L in Hfold.
  assert (Hin : (h, k) ∈ product (range row) (range col)).
  { rewrite Hscan. apply elem_of_app. right. left. }
  apply elem_of_product in Hin as [Hh Hk]. apply elem_of_range in Hh, Hk.
  assert (Hsorted : StronglySorted lex_lt (pre ++ (h, k) :: post)).
  { rewrite <-Hscan. apply product_sorted; apply range_sorted. }
  split.
  - apply not_elem_of_dom. rewrite Hfold.
    intros [H0|Hpre]%elem_of_union.
    + apply elem_of_singleton in H0. done.
    + apply elem_of_list_to_set in Hpre.
      apply StronglySorted_app in Hsorted as (Hlt & _ & _).
      specialize (Hlt (h, k) (h, k) Hpre ltac:(left)).
      unfold lex_lt in Hlt. simpl in Hlt. lia.
  - destruct (gather_spec m (h, k)) as (nt & ps & Hg & Hlen & Hnonempty).
    exists nt, ps. split_and!; [done| |done].
    apply Hnonempty. destruct (decide (k = 0)) as [->|Hk0].
    + exists (-1, 0). split; [by repeat constructor|].
      apply elem_of_dom. rewrite Hfold. apply elem_of_union. right.
      apply elem_of_list_to_set. simpl.
      apply (scan_predecessor row col pre post h 0); [done| | |].
      * assert (h ≠ 0) by (intros ->; done). lia.
      * lia.
      * left. simpl. lia.
    + exists (0, -1). split; [by repeat constructor|].
      apply elem_of_dom. rewrite Hfold. apply elem_of_union. right.
      apply elem_of_list_to_set. simpl.
      apply (scan_predecessor row col pre post h k); [done| | |].
      * lia.
      * lia.
      * right. simpl. lia.
Qed.

Lemma generate_neighbors_available_witness :
  ({[ (0, 0) := 0 ]} : gmap (Z * Z) Z) !! (0, 1) = None ∧
  ∃ neighbor_tiles positions,
    gather {[ (0, 0) := 0 ]} (0, 1) = Ok (neighbor_tiles, positions) ∧
    neighbor_tiles ≠ [] ∧
    length positions = length neighbor_tiles.
Proof.
  apply (generate_neighbors_available 2 2 [(0, 0)] 0 1 [(1, 0); (1, 1)] 0
           (ab_world [] []) _ (ab_world [] [])).
  - reflexivity.
  - vm_compute. reflexivity.
  - discriminate.
Defined.

(** ** The keys of a generated mapping *)

Lemma generate_keys row col w m w' :
  generate row col w = (Ok m, w') →
  info_row m = row ∧ info_col m = col ∧
  ∀ h k, is_Some (cells m !! (h, k)) ↔
         (h, k) = (0, 0) ∨ (0 ≤ h < row ∧ 0 ≤ k < col).
Proof.
  unfold generate. intros H.
  apply bind_inv in H as (n & w1 & _ & H).
  apply bind_inv in H as (tile & w2 & _ & H).
  apply bind_inv in H as (cs & w3 & Hfold & H).
  unfold ret in H. injection H as <- _. simpl. split_and!; [done..|].
  apply foldP_generate_step_dom in Hfold. intros h k.
  rewrite <-elem_of_dom, Hfold, dom_singleton_L, elem_of_union,
    elem_of_singleton, elem_of_list_to_set, elem_of_product, !elem_of_range.
  done.
Qed.

(** C3: [generate(1, 2)] declares one row and two columns but fills the
    keys (0,0) and (0,1): the first coordinate runs over the rows, while
    [_compute_counts] and [mapping_to_image] read it as the column.  The
    cell at column 1, row 0 is missing and a cell at row 1 is present. *)
Theorem generate_transposed_keys :
  ∃ m w',
    generate 1 2 (ab_world [] []) = (Ok m, w') ∧
    info_row m = 1 ∧ info_col m = 2 ∧
    cells m !! (1, 0) = None ∧
    cells m !! (0, 1) = Some 0 ∧
    dom (cells m) = {[ (0, 0); (0, 1) ]}.
Proof.
  eexists _, _. split; [vm_compute; reflexivity|].
  split_and!; vm_compute; reflexivity.
Qed.

(** C4: the directions [generate_2] passes are those under which the cell
    sees the placed tile, not those under which the placed tile sees the
    cell.  The directions the claim names (0, 1 for cell (1,0) and 3, 2 for
    cell (0,1)) do point at the cell, and with them the mapping the model was
    trained on is reproduced, while [generate_2] itself raises for either
    seed. *)
Theorem generate_2_directions_reversed :
  Forall2 (λ pos d, ¬ points_at pos d (1, 0) ∧ points_at (1, 0) d pos)
          [(0, 0); (1, 1)] generate_2_positions_10 ∧
  Forall2 (λ pos d, ¬ points_at pos d (0, 1) ∧ points_at (0, 1) d pos)
          [(0, 0); (1, 1)] generate_2_positions_01 ∧
  Forall2 (λ pos d, points_at pos d (1, 0)) [(0, 0); (1, 1)] [0; 1] ∧
  Forall2 (λ pos d, points_at pos d (0, 1)) [(0, 0); (1, 1)] [3; 2] ∧
  (generate_2 (ab_world [] [])).1 = Raise AssertionError ∧
  (generate_2 (ab_world [] [1%nat])).1 = Raise ValueError ∧
  (coupled_markov_chain [0; 1] [0; 1] (ab_world [] [])).1 = Ok 1 ∧
  (coupled_markov_chain [0; 1] [3; 2] (ab_world [] [])).1 = Ok 0.
Proof.
  assert (Hyes : ∀ pos d off cell,
             neighbor_offset d = Some off → _tuple_sum pos off = cell →
             points_at pos d cell).
  { intros pos d off cell Hd Hs. by exists off. }
  assert (Hno : ∀ pos d off cell,
            neighbor_offset d = Some off → _tuple_sum pos off ≠ cell →
            ¬ points_at pos d cell).
  { intros pos d off cell Hd Hs (off' & Hd' & Hs'). congruence. }
  split_and!.
  - repeat constructor.
    + by apply (Hno _ _ (-1, 0)).
    + by apply (Hyes _ _ (-1, 0)).
    + by apply (Hno _ _ (0, 1)).
    + by apply (Hyes _ _ (0, 1)).
  - repeat constructor.
    + by apply (Hno _ _ (0, -1)).
    + by apply (Hyes _ _ (0, -1)).
    + by apply (Hno _ _ (1, 0)).
    + by apply (Hyes _ _ (1, 0)).
  - repeat constructor.
    + by apply (Hyes _ _ (1, 0)).
    + by apply (Hyes _ _ (0, -1)).
  - repeat constructor.
    + by apply (Hyes _ _ (0, 1)).
    + by apply (Hyes _ _ (-1, 0)).
  - vm_compute. reflexivity.
  - vm_compute. reflexivity.
  - vm_compute. reflexivity.
  - vm_compute. reflexivity.
Qed.

(** ** Learning the counts *)

Lemma norm_index_in_range len t :
  0 ≤ t < Z.of_nat len → norm_index len t = Ok (Z.to_nat t).
Proof.
  intros Ht. unfold norm_index.
  destruct (Z.ltb_spec t 0); [lia|].
  destruct (Z.ltb_spec t 0); [lia|].
  destruct (Z.leb_spec (Z.of_nat len) t); [lia|done].
Qed.

Lemma list_getitem_in_range {A} (l : list A) t x :
  0 ≤ t → l !! Z.to_nat t = Some x → list_getitem l t = Ok x.
Proof.
  intros Ht Hx. unfold list_getitem.
  rewrite norm_index_in_range.
  - simpl. by rewrite Hx.
  - apply lookup_lt_Some in Hx. lia.
Qed.

Lemma counter_getitem_update c x t' :
  counter_getitem (counter_update c x) t'
  = (counter_getitem c t' + if decide (t' = x) then 1 else 0)%nat.
Proof.
  unfold counter_update, counter_getitem at 1.
  destruct (decide (t' = x)) as [->|Hne].
  - rewrite lookup_insert_eq. simpl. lia.
  - rewrite lookup_insert_ne by done. fold (counter_getitem c t'). lia.
Qed.

Lemma counts_update_spec counts tile i x :
  well_formed counts →
  0 ≤ tile < Z.of_nat (length counts) →
  0 ≤ i < 8 →
  ∃ counts',
    counts_update counts tile i x = Ok counts' ∧
    well_formed counts' ∧
    length counts' = length counts ∧
    ∀ j d t',
      stored counts' j d t'
      = (stored counts j d t'
         + if decide (j = Z.to_nat tile ∧ d = i ∧ t' = x) then 1 else 0)%nat.
Proof.
  intros Hwf Ht Hi. unfold counts_update.
  rewrite norm_index_in_range by done. simpl bindR.
  destruct (lookup_lt_is_Some_2 counts (Z.to_nat tile)) as [dirs Hdirs]; [lia|].
  rewrite (list_getitem_in_range counts tile dirs) by (done || lia). simpl bindR.
  assert (Hd8 : ∀ d, 0 ≤ d < 8 → is_Some (dirs !! d)).
  { unfold well_formed in Hwf. rewrite Forall_forall in Hwf.
    apply Hwf. by eapply list_elem_of_lookup_2. }
  destruct (Hd8 i Hi) as [c Hc]. unfold dict_getitem. rewrite Hc. simpl bindR.
  eexists. split; [done|]. split_and!.
  - apply Forall_insert; [done|]. intros d Hd.
    destruct (decide (d = i)) as [->|Hne].
    + rewrite lookup_insert_eq. eauto.
    + rewrite lookup_insert_ne by done. by apply Hd8.
  - apply length_insert.
  - intros j d t'. unfold stored.
    destruct (decide (j = Z.to_nat tile)) as [->|Hj].
    + rewrite list_lookup_insert_eq by lia. rewrite Hdirs.
      destruct (decide (d = i)) as [->|Hd].
      * rewrite lookup_insert_eq, Hc, counter_getitem_update.
        destruct (decide (t' = x)) as [->|Hx].
        -- by rewrite decide_True.
        -- by rewrite decide_False by tauto.
      * rewrite lookup_insert_ne by done.
        rewrite decide_False by tauto. lia.
    + rewrite list_lookup_insert_ne by done.
      rewrite decide_False by tauto. lia.
Qed.

Lemma hits_cons m uv d t' i n l :
  hits m uv d t' ((i, n) :: l)
  = ((if decide (i = d ∧ cells m !! _tuple_sum n uv = Some t') then 1 else 0)
     + hits m uv d t' l)%nat.
Proof.
  unfold hits. rewrite filter_cons. simpl.
  by destruct (decide (i = d ∧ cells m !! _tuple_sum n uv = Some t')).
Qed.

Lemma observe_fold m tile uv l counts :
  well_formed counts →
  0 ≤ tile < Z.of_nat (length counts) →
  Forall (λ ni : Z * (Z * Z), 0 ≤ ni.1 < 8) l →
  ∃ counts',
    foldR (observe m tile uv) counts l = Ok counts' ∧
    well_formed counts' ∧
    length counts' = length counts ∧
    ∀ j d t',
      stored counts' j d t'
      = (stored counts j d t'
         + if decide (j = Z.to_nat tile) then hits m uv d t' l else 0)%nat.
Proof.
  intros Hwf Ht Hl. revert counts Hwf Ht.
  induction Hl as [|[i n] l Hi Hl IH]; intros counts Hwf Ht.
  - exists counts. split_and!; [done..|]. intros j d t'.
    unfold hits. rewrite filter_nil. simpl. case_decide; lia.
  - simpl in Hi. simpl foldR. unfold observe at 1.
    destruct (cells m !! _tuple_sum n uv) as [x|] eqn:Hx.
    + destruct (counts_update_spec counts tile i x Hwf Ht Hi)
        as (counts1 & -> & Hwf1 & Hlen1 & Hst1).
      simpl bindR.
      destruct (IH counts1 Hwf1) as (counts' & Hf & Hwf' & Hlen' & Hst');
        [by rewrite Hlen1|].
      exists counts'. split_and!; [done..|congruence|].
      intros j d t'. rewrite Hst', Hst1, hits_cons, Hx.
      destruct (decide (j = Z.to_nat tile)) as [->|Hj].
      * destruct (decide (d = i)) as [->|Hd].
        -- destruct (decide (t' = x)) as [->|Hne].
           ++ rewrite !decide_True by done. lia.
           ++ rewrite decide_False by tauto.
              rewrite (decide_False (P := i = i ∧ Some x = Some t')) by (intros [_ [=]]; done).
              lia.
        -- rewrite decide_False by tauto.
           rewrite (decide_False (P := i = d ∧ Some x = Some t')) by (intros [? _]; done).
           lia.
      * rewrite decide_False by tauto. lia.
    + simpl bindR.
      destruct (IH counts Hwf Ht) as (counts' & Hf & Hwf' & Hlen' & Hst').
      exists counts'. split_and!; [done..|].
      intros j d t'. rewrite Hst', hits_cons, Hx.
      rewrite (decide_False (P := i = d ∧ None = Some t')) by (intros [_ [=]]).
      done.
Qed.

Lemma hits_list_to_map m uv d t' (l : list (Z * (Z * Z))) :
  NoDup l.*1 →
  hits m uv d t' l
  = if decide (((list_to_map l : gmap Z (Z * Z)) !! d
                ≫= λ off, cells m !! _tuple_sum off uv) = Some t')
    then 1%nat else 0%nat.
Proof.
  induction l as [|[i n] l IH]; intros Hnd.
  - unfold hits. rewrite filter_nil. simpl. rewrite lookup_empty. simpl.
    done.
  - simpl in Hnd. apply NoDup_cons in Hnd as [Hi Hnd].
    rewrite hits_cons, (IH Hnd). simpl list_to_map.
    destruct (decide (i = d)) as [->|Hne].
    + rewrite lookup_insert_eq.
      rewrite (not_elem_of_list_to_map_1 l d Hi). simpl.
      destruct (decide (cells m !! _tuple_sum n uv = Some t')) as [Hc|Hc].
      * by rewrite decide_True.
      * by rewrite decide_False by tauto.
    + rewrite lookup_insert_ne by done.
      by rewrite decide_False by tauto.
Qed.

Lemma enumerate_offsets_keys :
  (enumerate (adjacent_neighbors ++ diagonal_neighbors)).*1 = seqZ 0 8.
Proof. reflexivity. Qed.

Lemma scan_cell_spec m counts uv tile :
  well_formed counts →
  cells m !! uv = Some tile →
  0 ≤ tile < Z.of_nat (length counts) →
  ∃ counts',
    scan_cell m counts uv = Ok counts' ∧
    well_formed counts' ∧
    length counts' = length counts ∧
    ∀ t d t', 0 ≤ t →
      stored counts' (Z.to_nat t) d t'
      = (stored counts (Z.to_nat t) d t'
         + if decide (observed m t d t' uv) then 1 else 0)%nat.
Proof.
  intros Hwf Htile Hrange. unfold scan_cell, dict_getitem. rewrite Htile.
  simpl bindR.
  destruct (observe_fold m tile uv
              (enumerate (adjacent_neighbors ++ diagonal_neighbors)) counts Hwf Hrange)
    as (counts' & Hf & Hwf' & Hlen & Hst).
  { apply Forall_forall. intros ni Hni.
    assert (H : ni.1 ∈ seqZ 0 8).
    { rewrite <-enumerate_offsets_keys. apply list_elem_of_fmap. eauto. }
    apply elem_of_seqZ in H. lia. }
  exists counts'. split_and!; [done..|].
  intros t d t' Ht. rewrite Hst. f_equal.
  rewrite hits_list_to_map by (rewrite enumerate_offsets_keys; apply NoDup_seqZ).
  fold (neighbor_offset d).
  destruct (decide (observed m t d t' uv)) as [[Hc Hn]|Ho].
  - rewrite Htile in Hc. injection Hc as ->.
    by rewrite !decide_True.
  - destruct (decide (Z.to_nat t = Z.to_nat tile)) as [Heq|Hne]; [|done].
    assert (t = tile) as -> by lia.
    rewrite decide_False; [done|]. intros Hn. by apply Ho.
Qed.

Lemma scan_fold m l counts :
  well_formed counts →
  (∀ p, p ∈ l → ∃ tile, cells m !! p = Some tile ∧
                        0 ≤ tile < Z.of_nat (length counts)) →
  ∃ counts',
    foldR (scan_cell m) counts l = Ok counts' ∧
    well_formed counts' ∧
    length counts' = length counts ∧
    ∀ t d t', 0 ≤ t →
      stored counts' (Z.to_nat t) d t'
      = (stored counts (Z.to_nat t) d t'
         + length (filter (observed m t d t') l))%nat.
Proof.
  revert counts. induction l as [|uv l IH]; intros counts Hwf Hl.
  - exists counts. split_and!; [done..|]. intros. rewrite filter_nil. simpl. lia.
  - destruct (Hl uv) as (tile & Htile & Hrange); [left|].
    destruct (scan_cell_spec m counts uv tile Hwf Htile Hrange)
      as (counts1 & Hs & Hwf1 & Hlen1 & Hst1).
    simpl foldR. rewrite Hs. simpl bindR.
    destruct (IH counts1 Hwf1) as (counts' & Hf & Hwf' & Hlen' & Hst').
    { intros p Hp. rewrite Hlen1. apply Hl. by right. }
    exists counts'. split_and!; [done..|congruence|].
    intros t d t' Ht. rewrite Hst', Hst1 by done. rewrite filter_cons.
    destruct (decide (observed m t d t' uv)); simpl; lia.
Qed.

Lemma empty_directions_lookup d :
  0 ≤ d < 8 → empty_directions !! d = Some ∅.
Proof.
  intros Hd.
  assert (H : d = 0 ∨ d = 1 ∨ d = 2 ∨ d = 3 ∨ d = 4 ∨ d = 5 ∨ d = 6 ∨ d = 7) by lia.
  destruct_or!; subst d; reflexivity.
Qed.

Lemma empty_directions_empty d c : empty_directions !! d = Some c → c = ∅.
Proof.
  unfold empty_directions. intros H%elem_of_list_to_map_2.
  apply list_elem_of_fmap in H as (i & [= _ ->] & _). done.
Qed.

Lemma stored_initial k j d t' : stored (replicate k empty_directions) j d t' = 0%nat.
Proof.
  unfold stored. destruct (replicate k empty_directions !! j) as [dirs|] eqn:Hj; [|done].
  apply lookup_replicate in Hj as [-> _].
  destruct (empty_directions !! d) as [c|] eqn:Hd; [|done].
  by apply empty_directions_empty in Hd as ->.
Qed.

Lemma counts_get_stored counts t d t' :
  well_formed counts →
  0 ≤ t < Z.of_nat (length counts) → 0 ≤ d < 8 →
  counts_get counts t d t' = Ok (stored counts (Z.to_nat t) d t').
Proof.
  intros Hwf Ht Hd. unfold counts_get, stored.
  destruct (lookup_lt_is_Some_2 counts (Z.to_nat t)) as [dirs Hdirs]; [lia|].
  rewrite (list_getitem_in_range counts t dirs) by (done || lia).
  rewrite Hdirs. simpl bindR.
  unfold well_formed in Hwf. rewrite Forall_forall in Hwf.
  destruct (Hwf dirs (list_elem_of_lookup_2 _ _ _ Hdirs) d Hd) as [c Hc].
  unfold dict_getitem. by rewrite Hc.
Qed.

Lemma size_filter_list (P : Z * Z → Prop) `{!∀ p, Decision (P p)}
    (X : gset (Z * Z)) (l : list (Z * Z)) :
  NoDup l → (∀ p, p ∈ l ↔ p ∈ X) →
  size (filter P X) = length (filter P l).
Proof.
  intros Hnd Hl. unfold filter at 1, set_filter.
  rewrite size_list_to_set by apply NoDup_filter, NoDup_elements.
  apply Permutation_length, filter_Permutation.
  apply NoDup_Permutation; [apply NoDup_elements|done|].
  intros p. by rewrite elem_of_elements, Hl.
Qed.

Lemma NoDup_product (l k : list Z) :
  StronglySorted Z.lt l → StronglySorted Z.lt k → NoDup (product l k).
Proof.
  intros Hl Hk. pose proof (product_sorted l k Hl Hk) as Hs.
  induction Hs as [|p ps Hs IH Hp]; constructor; [|done].
  intros Hin. eapply Forall_forall in Hp; [|done].
  unfold lex_lt in Hp. lia.
Qed.

(** C5: on a complete training mapping whose tiles lie in [0, n), the
    table built by [_compute_counts] holds, for every tile [t], direction
    [d] in 0..7 and tile [t'], the number of positions of the mapping that
    hold [t] and whose neighbour in direction [d] is in the mapping and
    holds [t']; a neighbour outside the mapping adds nothing. *)
Theorem compute_counts_spec m n :
  (∀ u v, is_Some (cells m !! (u, v)) ↔
          0 ≤ u < info_col m ∧ 0 ≤ v < info_row m) →
  (∀ p t, cells m !! p = Some t → 0 ≤ t < n) →
  ∃ counts,
    _compute_counts m n = Ok counts ∧
    ∀ t d t', 0 ≤ t < n → 0 ≤ d < 8 →
      counts_get counts t d t'
      = Ok (size (filter (observed m t d t') (dom (cells m)))).
Proof.
  intros Hcomplete Htiles. unfold _compute_counts.
  set (l := product (range (info_col m)) (range (info_row m))).
  assert (Hl : ∀ p, p ∈ l ↔ p ∈ dom (cells m)).
  { intros [u v]. unfold l.
    by rewrite elem_of_product, !elem_of_range, elem_of_dom, Hcomplete. }
  destruct (scan_fold m l (replicate (Z.to_nat n) empty_directions))
    as (counts & Hf & Hwf & Hlen & Hst).
  { apply Forall_replicate. intros d Hd. rewrite empty_directions_lookup by done.
    eauto. }
  { intros p Hp. apply Hl, elem_of_dom in Hp as [tile Htile].
    exists tile. split; [done|]. rewrite length_replicate.
    apply Htiles in Htile. lia. }
  exists counts. split; [done|]. intros t d t' Ht Hd.
  rewrite length_replicate in Hlen.
  rewrite counts_get_stored by (done || lia).
  rewrite Hst, stored_initial by lia. simpl. f_equal. symmetry.
  apply size_filter_list; [|done].
  apply NoDup_product; apply range_sorted.
Qed.

Lemma compute_counts_spec_witness :
  ∃ counts,
    _compute_counts ab_mapping 2 = Ok counts ∧
    ∀ t d t', 0 ≤ t < 2 → 0 ≤ d < 8 →
      counts_get counts t d t'
      = Ok (size (filter (observed ab_mapping t d t') (dom (cells ab_mapping)))).
Proof.
  apply (compute_counts_spec ab_mapping 2).
  - intros u v.
    assert (Hdom : dom (cells ab_mapping) = {[ (0, 0); (1, 0); (0, 1); (1, 1) ]})
      by (vm_compute; reflexivity).
    rewrite <-elem_of_dom, Hdom, !elem_of_union, !elem_of_singleton.
    change (info_col ab_mapping) with 2. change (info_row ab_mapping) with 2.
    split.
    + intros [[[[= -> ->]|[= -> ->]]|[= -> ->]]|[= -> ->]]; lia.
    + intros [Hu Hv].
      assert (Hu' : u = 0 ∨ u = 1) by lia. assert (Hv' : v = 0 ∨ v = 1) by lia.
      destruct Hu' as [->| ->], Hv' as [->| ->]; tauto.
  - intros p t Hp.
    assert (Hin : (p, t) ∈ map_to_list (cells ab_mapping))
      by (by apply elem_of_map_to_list).
    assert (Hl : map_to_list (cells ab_mapping)
                 = [((0, 1), 0); ((0, 0), 0); ((1, 0), 1); ((1, 1), 1)])
      by (vm_compute; reflexivity).
    rewrite Hl in Hin.
    repeat (apply elem_of_cons in Hin as [[= _ ->]|Hin]; [lia|]).
    by apply elem_of_nil in Hin.
Defined.

(** * Further properties of the generator *)

(** ** What every table built by [_compute_counts] satisfies *)

Lemma foldR_invariant {A B} (P : A → Prop) (f : A → B → Result A) l a a' :
  (∀ a b a', P a → f a b = Ok a' → P a') →
  P a → foldR f a l = Ok a' → P a'.
Proof.
  intros Hf. revert a. induction l as [|b l IH]; intros a Ha; simpl.
  - by intros [= <-].
  - destruct (f a b) as [a1|e] eqn:Hb; simpl; [|discriminate]. eauto.
Qed.

Lemma norm_index_lt len i j : norm_index len i = Ok j → (j < len)%nat.
Proof.
  unfold norm_index. destruct (_ || _) eqn:Hb; [discriminate|].
  intros [= <-]. apply orb_false_iff in Hb as [H1 H2].
  apply Z.ltb_ge in H1. apply Z.leb_gt in H2. lia.
Qed.

Lemma counts_update_inv counts tile i x counts' :
  counts_update counts tile i x = Ok counts' →
  ∃ j dirs c,
    (j < length counts)%nat ∧ counts !! j = Some dirs ∧ dirs !! i = Some c ∧
    counts' = <[j := <[i := counter_update c x]> dirs]> counts.
Proof.
  unfold counts_update, list_getitem.
  destruct (norm_index (length counts) tile) as [j|e] eqn:Hj; [|discriminate].
  simpl bindR. destruct (counts !! j) as [dirs|] eqn:Hdirs; [|discriminate].
  simpl bindR. unfold dict_getitem.
  destruct (dirs !! i) as [c|] eqn:Hc; [|discriminate]. simpl bindR.
  intros [= <-]. exists j, dirs, c. split_and!; try done.
  by eapply norm_index_lt.
Qed.

Lemma compute_counts_invariant m n counts :
  _compute_counts m n = Ok counts →
  length counts = Z.to_nat n ∧
  Forall (λ dirs : gmap Z Counter,
            dom dirs = dom empty_directions ∧
            ∀ d c x k, dirs !! d = Some c → c !! x = Some k →
                       (0 < k)%nat ∧ ∃ p, cells m !! p = Some x) counts.
Proof.
  unfold _compute_counts.
  set (good := λ dirs : gmap Z Counter,
         dom dirs = dom empty_directions ∧
         ∀ d c x k, dirs !! d = Some c → c !! x = Some k →
                    (0 < k)%nat ∧ ∃ p, cells m !! p = Some x).
  set (P := λ counts : Counts, length counts = Z.to_nat n ∧ Forall good counts).
  apply (foldR_invariant P).
  - clear counts. intros counts uv counts' HP. unfold scan_cell, dict_getitem.
    destruct (cells m !! uv) as [tile|]; [|discriminate]. unfold bindR.
    revert HP. apply foldR_invariant. clear counts counts'.
    intros counts [i off] counts' [Hlen Hgood]. unfold observe.
    destruct (cells m !! _tuple_sum off uv) as [x|] eqn:Hx;
      [|by intros [= <-]].
    intros (j & dirs & c & Hj & Hdirs & Hc & ->)%counts_update_inv.
    split; [by rewrite length_insert|].
    apply Forall_insert; [done|].
    rewrite Forall_forall in Hgood.
    destruct (Hgood dirs (list_elem_of_lookup_2 _ _ _ Hdirs)) as [Hdom Hpos].
    split.
    + rewrite dom_insert_L, Hdom.
      assert (i ∈ dom empty_directions)
        by (rewrite <-Hdom; apply elem_of_dom; eauto).
      apply set_eq. intros z. rewrite elem_of_union, elem_of_singleton.
      split; [by intros [->|?]|tauto].
    + intros d c' y k Hd Hy.
      destruct (decide (d = i)) as [->|Hne].
      * rewrite lookup_insert_eq in Hd. injection Hd as <-.
        unfold counter_update in Hy. destruct (decide (y = x)) as [->|Hyx].
        -- rewrite lookup_insert_eq in Hy. injection Hy as <-.
           split; [lia|eauto].
        -- rewrite lookup_insert_ne in Hy by done. eauto.
      * rewrite lookup_insert_ne in Hd by done. eauto.
  - split; [apply length_replicate|]. apply Forall_replicate. split; [done|].
    intros d c x k Hd Hx. apply empty_directions_empty in Hd as ->.
    by rewrite lookup_empty in Hx.
Qed.

(** X1: a table returned by [_compute_counts] has [n] entries, each with
    exactly the direction keys 0..7; every count in it is positive and
    every tile id it mentions occurs in the training mapping. *)
Theorem compute_counts_table m n counts :
  _compute_counts m n = Ok counts →
  length counts = Z.to_nat n ∧
  ∀ dirs, dirs ∈ counts →
    (∀ d, is_Some (dirs !! d) ↔ 0 ≤ d < 8) ∧
    ∀ d c x k, dirs !! d = Some c → c !! x = Some k →
               (0 < k)%nat ∧ ∃ p, cells m !! p = Some x.
Proof.
  intros [Hlen Hgood]%compute_counts_invariant. split; [done|].
  intros dirs Hdirs. rewrite Forall_forall in Hgood.
  destruct (Hgood dirs Hdirs) as [Hdom Hpos]. split; [|done].
  intros d. rewrite <-elem_of_dom, Hdom.
  assert (Hd8 : dom empty_directions = list_to_set (seqZ 0 8))
    by (vm_compute; reflexivity).
  rewrite Hd8, elem_of_list_to_set, elem_of_seqZ. lia.
Qed.

Lemma compute_counts_table_witness :
  length (self_counts (generator_of ab_mapping 2)) = Z.to_nat 2 ∧
  ∀ dirs, dirs ∈ self_counts (generator_of ab_mapping 2) →
    (∀ d, is_Some (dirs !! d) ↔ 0 ≤ d < 8) ∧
    ∀ d c x k, dirs !! d = Some c → c !! x = Some k →
               (0 < k)%nat ∧ ∃ p, cells ab_mapping !! p = Some x.
Proof.
  apply (compute_counts_table ab_mapping 2). vm_compute. reflexivity.
Defined.

(** ** A hole in the training mapping *)

Lemma scan_fold_missing m l counts :
  well_formed counts →
  (∀ p tile, cells m !! p = Some tile → 0 ≤ tile < Z.of_nat (length counts)) →
  (∃ p, p ∈ l ∧ cells m !! p = None) →
  foldR (scan_cell m) counts l = Raise KeyError.
Proof.
  intros Hwf Hrange. revert counts Hwf Hrange.
  induction l as [|uv l IH]; intros counts Hwf Hrange (p & Hp & Hnone).
  - by apply elem_of_nil in Hp.
  - simpl foldR. destruct (cells m !! uv) as [tile|] eqn:Huv.
    + destruct (scan_cell_spec m counts uv tile Hwf Huv (Hrange _ _ Huv))
        as (counts1 & -> & Hwf1 & Hlen1 & _).
      simpl bindR. apply IH; [done|by rewrite Hlen1|].
      exists p. split; [|done]. apply elem_of_cons in Hp as [->|Hp]; [|done].
      congruence.
    + unfold scan_cell, dict_getitem. by rewrite Huv.
Qed.

(** X2: when the tiles present are in [0, n) but some cell of the declared
    rectangle is missing from the mapping, [_compute_counts] raises
    [KeyError]: a sparse training mapping is not accepted. *)
Theorem compute_counts_missing_cell m n u v :
  (∀ p t, cells m !! p = Some t → 0 ≤ t < n) →
  0 ≤ u < info_col m → 0 ≤ v < info_row m →
  cells m !! (u, v) = None →
  _compute_counts m n = Raise KeyError ∧ __init__ m n = Raise KeyError.
Proof.
  intros Htiles Hu Hv Hnone.
  assert (H : _compute_counts m n = Raise KeyError).
  { unfold _compute_counts. apply scan_fold_missing.
    - apply Forall_replicate. intros d Hd.
      rewrite empty_directions_lookup by done. eauto.
    - intros p t Hp. rewrite length_replicate. apply Htiles in Hp. lia.
    - exists (u, v). split; [|done].
      apply elem_of_product. by rewrite !elem_of_range. }
  split; [done|]. unfold __init__. by rewrite H.
Qed.

Lemma compute_counts_missing_cell_witness :
  _compute_counts (MkMapping 1 2 {[ (0, 0) := 0 ]}) 1 = Raise KeyError ∧
  __init__ (MkMapping 1 2 {[ (0, 0) := 0 ]}) 1 = Raise KeyError.
Proof.
  apply (compute_counts_missing_cell (MkMapping 1 2 {[ (0, 0) := 0 ]}) 1 1 0).
  - intros p t Hp. simpl in Hp. apply lookup_singleton_Some in Hp as [_ <-]. lia.
  - simpl. lia.
  - simpl. lia.
  - vm_compute. reflexivity.
Defined.

(** ** Counts seen from the two ends of an adjacency *)

Lemma neighbor_offset_range d off : neighbor_offset d = Some off → 0 ≤ d < 8.
Proof.
  unfold neighbor_offset. intros H%elem_of_list_to_map_2.
  assert (Hd : d ∈ seqZ 0 8).
  { rewrite <-enumerate_offsets_keys. apply list_elem_of_fmap. by exists (d, off). }
  apply elem_of_seqZ in Hd. lia.
Qed.

Lemma compute_counts_complete m n :
  (∀ u v, is_Some (cells m !! (u, v)) ↔
          0 ≤ u < info_col m ∧ 0 ≤ v < info_row m) →
  (∀ p t, cells m !! p = Some t → 0 ≤ t < n) →
  ∃ counts,
    _compute_counts m n = Ok counts ∧
    well_formed counts ∧ length counts = Z.to_nat n ∧
    ∀ t d t', 0 ≤ t →
      stored counts (Z.to_nat t) d t'
      = size (filter (observed m t d t') (dom (cells m))).
Proof.
  intros Hcomplete Htiles. unfold _compute_counts.
  set (l := product (range (info_col m)) (range (info_row m))).
  assert (Hl : ∀ p, p ∈ l ↔ p ∈ dom (cells m)).
  { intros [u v]. unfold l.
    by rewrite elem_of_product, !elem_of_range, elem_of_dom, Hcomplete. }
  destruct (scan_fold m l (replicate (Z.to_nat n) empty_directions))
    as (counts & Hf & Hwf & Hlen & Hst).
  { apply Forall_replicate. intros d Hd. rewrite empty_directions_lookup by done.
    eauto. }
  { intros p Hp. apply Hl, elem_of_dom in Hp as [tile Htile].
    exists tile. split; [done|]. rewrite length_replicate.
    apply Htiles in Htile. lia. }
  exists counts. rewrite length_replicate in Hlen. split_and!; [done..|].
  intros t d t' Ht. rewrite Hst, stored_initial by done. simpl. symmetry.
  apply size_filter_list; [|done].
  apply NoDup_product; apply range_sorted.
Qed.

Lemma size_bijection (X Y : gset (Z * Z)) (f : Z * Z → Z * Z) :
  Inj (=) (=) f →
  (∀ y, y ∈ Y ↔ ∃ x, y = f x ∧ x ∈ X) →
  size Y = size X.
Proof.
  intros Hinj HY. unfold size, set_size. simpl.
  rewrite <-(length_fmap f (elements X)). apply Permutation_length.
  apply NoDup_Permutation.
  - apply NoDup_elements.
  - apply NoDup_fmap_2; [done|apply NoDup_elements].
  - intros y. rewrite elem_of_elements, HY, list_elem_of_fmap.
    by setoid_rewrite elem_of_elements.
Qed.

Lemma tuple_sum_inj off : Inj (=) (=) (_tuple_sum off).
Proof.
  intros [a b] [a' b']. destruct off as [i j]. simpl. intros [= ? ?].
  f_equal; lia.
Qed.

(** X3: on a complete training mapping the table is symmetric: the number
    of times [t'] was seen next to [t] in a direction equals the number of
    times [t] was seen next to [t'] in the direction of the negated
    offset. *)
Theorem compute_counts_symmetric m n d d' off :
  (∀ u v, is_Some (cells m !! (u, v)) ↔
          0 ≤ u < info_col m ∧ 0 ≤ v < info_row m) →
  (∀ p t, cells m !! p = Some t → 0 ≤ t < n) →
  neighbor_offset d = Some off →
  neighbor_offset d' = Some (- off.1, - off.2) →
  ∃ counts,
    _compute_counts m n = Ok counts ∧
    ∀ t t', 0 ≤ t < n → 0 ≤ t' < n →
      counts_get counts t d t' = counts_get counts t' d' t ∧
      ∃ k, counts_get counts t d t' = Ok k.
Proof.
  intros Hcomplete Htiles Hd Hd'.
  destruct (compute_counts_complete m n Hcomplete Htiles)
    as (counts & Hc & Hwf & Hlen & Hst).
  exists counts. split; [done|]. intros t t' Ht Ht'.
  pose proof (neighbor_offset_range _ _ Hd) as Hd8.
  pose proof (neighbor_offset_range _ _ Hd') as Hd8'.
  rewrite !counts_get_stored by (done || lia).
  split; [|eauto]. f_equal. rewrite !Hst by lia.
  apply (size_bijection _ _ (_tuple_sum (- off.1, - off.2)));
    [apply tuple_sum_inj|].
  intros [a b]. rewrite elem_of_filter. unfold observed.
  setoid_rewrite elem_of_filter. unfold observed. rewrite Hd, Hd'.
  destruct off as [i j]. simpl. split.
  - intros [[Ha Hb] Hin]. exists (i + a, j + b). split_and!.
    + f_equal; lia.
    + done.
    + rewrite <-Ha. f_equal. f_equal; lia.
    + apply elem_of_dom. eauto.
  - intros ([a' b'] & [= -> ->] & [Ha Hb] & Hin).
    replace (i + (- i + a')) with a' by lia.
    replace (j + (- j + b')) with b' by lia.
    split_and!; [done..|]. apply elem_of_dom. eauto.
Qed.

Lemma ab_mapping_complete u v :
  is_Some (cells ab_mapping !! (u, v)) ↔
  0 ≤ u < info_col ab_mapping ∧ 0 ≤ v < info_row ab_mapping.
Proof.
  assert (Hdom : dom (cells ab_mapping) = {[ (0, 0); (1, 0); (0, 1); (1, 1) ]})
    by (vm_compute; reflexivity).
  rewrite <-elem_of_dom, Hdom, !elem_of_union, !elem_of_singleton.
  change (info_col ab_mapping) with 2. change (info_row ab_mapping) with 2.
  split.
  - intros [[[[= -> ->]|[= -> ->]]|[= -> ->]]|[= -> ->]]; lia.
  - intros [Hu Hv].
    assert (Hu' : u = 0 ∨ u = 1) by lia. assert (Hv' : v = 0 ∨ v = 1) by lia.
    destruct Hu' as [->| ->], Hv' as [->| ->]; tauto.
Defined.

Lemma ab_mapping_tiles p t : cells ab_mapping !! p = Some t → 0 ≤ t < 2.
Proof.
  intros Hp.
  assert (Hin : (p, t) ∈ map_to_list (cells ab_mapping))
    by (by apply elem_of_map_to_list).
  assert (Hl : map_to_list (cells ab_mapping)
               = [((0, 1), 0); ((0, 0), 0); ((1, 0), 1); ((1, 1), 1)])
    by (vm_compute; reflexivity).
  rewrite Hl in Hin.
  repeat (apply elem_of_cons in Hin as [[= _ ->]|Hin]; [lia|]).
  by apply elem_of_nil in Hin.
Defined.

Lemma compute_counts_symmetric_witness :
  ∃ counts,
    _compute_counts ab_mapping 2 = Ok counts ∧
    ∀ t t', 0 ≤ t < 2 → 0 ≤ t' < 2 →
      counts_get counts t 0 t' = counts_get counts t' 2 t ∧
      ∃ k, counts_get counts t 0 t' = Ok k.
Proof.
  apply (compute_counts_symmetric ab_mapping 2 0 2 (1, 0)).
  - apply ab_mapping_complete.
  - apply ab_mapping_tiles.
  - reflexivity.
  - reflexivity.
Defined.

(** ** When the sampler and the intersector return *)

Lemma sample_ok ids frequencies w :
  ids ≠ [] → length ids = length frequencies →
  Forall (λ a, (0 < a)%nat) frequencies →
  ∃ t, t ∈ ids ∧
       sample ids frequencies w
       = (Ok t, MkWorld (self w) (pick (np_random w) (length ids)).2 (py_random w)).
Proof.
  intros Hne Hlen Hpos. unfold sample.
  assert (Hex : existsb (Nat.eqb 0) frequencies = false).
  { apply not_true_is_false. intros (a & Ha & Heq)%existsb_exists.
    apply Nat.eqb_eq in Heq. subst a.
    rewrite Forall_forall in Hpos. apply list_elem_of_In, Hpos in Ha. lia. }
  rewrite Hex. destruct ids as [|i ids]; [done|].
  rewrite (proj2 (Nat.eqb_eq _ _) Hlen). change (negb true) with false.
  cbv beta iota. unfold bind, draw_np.
  pose proof (pick_lt (np_random w) (length (i :: ids)) ltac:(simpl; lia)) as Hlt.
  destruct (pick (np_random w) (length (i :: ids))) as [k tape].
  destruct (lookup_lt_is_Some_2 (i :: ids) k Hlt) as [t Ht].
  rewrite Ht. exists t. split; [by eapply list_elem_of_lookup_2|done].
Qed.

Lemma sample_empty frequencies w :
  sample [] frequencies w = (Raise ValueError, w).
Proof. unfold sample. by destruct (existsb _ _). Qed.

Lemma counter_positive_values (c : Counter) :
  (∀ x k, c !! x = Some k → (0 < k)%nat) →
  Forall (λ a, (0 < a)%nat) (values c).
Proof.
  intros Hpos. apply Forall_forall. intros a Ha. unfold values in Ha.
  apply list_elem_of_fmap in Ha as ([x k] & -> & Hin).
  apply elem_of_map_to_list in Hin. eauto.
Qed.

Lemma keys_nil (c : Counter) : keys c = [] ↔ c = ∅.
Proof.
  unfold keys. rewrite <-map_to_list_empty_iff.
  split; [apply fmap_nil_inv|by intros ->].
Qed.

Lemma length_keys_values (c : Counter) : length (keys c) = length (values c).
Proof. unfold keys, values. by rewrite !length_fmap. Qed.

Lemma sample_counter (c : Counter) w :
  c ≠ ∅ → (∀ x k, c !! x = Some k → (0 < k)%nat) →
  ∃ t w', sample (keys c) (values c) w = (Ok t, w') ∧ t ∈ dom c ∧
          self w' = self w ∧ py_random w' = py_random w.
Proof.
  intros Hne Hpos.
  destruct (sample_ok (keys c) (values c) w) as (t & Ht & Hs).
  - by rewrite keys_nil.
  - apply length_keys_values.
  - by apply counter_positive_values.
  - eexists t, _. split; [done|]. split_and!; [|done..]. by apply elem_of_keys.
Qed.

Lemma counts_getitem_run tile n w :
  counts_getitem tile n w = ((counts_getitem tile n w).1, w).
Proof.
  rewrite <-(read_only_counts_getitem tile n w) at 3.
  by destruct (counts_getitem tile n w).
Qed.

(** X4: [wavefunction] on a distribution with positive counts returns one
    of its keys and leaves the generator and Python's random source alone;
    on an empty distribution it raises [ValueError] without drawing. *)
Theorem wavefunction_result w tile neighbor_id c :
  (counts_getitem tile neighbor_id w).1 = Ok c →
  (∀ x k, c !! x = Some k → (0 < k)%nat) →
  (c = ∅ → wavefunction tile neighbor_id w = (Raise ValueError, w)) ∧
  (c ≠ ∅ → ∃ t w', wavefunction tile neighbor_id w = (Ok t, w') ∧ t ∈ dom c ∧
                   self w' = self w ∧ py_random w' = py_random w).
Proof.
  intros Hc Hpos.
  assert (Hw : wavefunction tile neighbor_id w = sample (keys c) (values c) w).
  { unfold wavefunction.
    by rewrite (bind_ok _ _ w c w) by (by rewrite counts_getitem_run, Hc). }
  rewrite Hw. split.
  - intros ->. unfold keys. rewrite map_to_list_empty. apply sample_empty.
  - intros Hne. by apply sample_counter.
Qed.

Lemma wavefunction_result_witness :
  (({[1 := 1%nat]} : Counter) = ∅ →
   wavefunction 0 7 (ab_world [4%nat] []) = (Raise ValueError, ab_world [4%nat] [])) ∧
  (({[1 := 1%nat]} : Counter) ≠ ∅ →
   ∃ t w', wavefunction 0 7 (ab_world [4%nat] []) = (Ok t, w') ∧
           t ∈ dom ({[1 := 1%nat]} : Counter) ∧
           self w' = self (ab_world [4%nat] []) ∧
           py_random w' = py_random (ab_world [4%nat] [])).
Proof.
  apply (wavefunction_result (ab_world [4%nat] []) 0 7 {[1 := 1%nat]}).
  - vm_compute. reflexivity.
  - intros x k Hk. apply lookup_singleton_Some in Hk as [_ <-]. lia.
Defined.

Lemma wavefunction_lookup_error w tile neighbor_id e :
  (counts_getitem tile neighbor_id w).1 = Raise e →
  wavefunction tile neighbor_id w = (Raise e, w) ∧
  coupled_markov_chain [tile] [neighbor_id] w = (Raise e, w).
Proof.
  intros He. split.
  - unfold wavefunction.
    by rewrite (bind_raise _ _ w e w) by (by rewrite counts_getitem_run, He).
  - unfold coupled_markov_chain. simpl mapP.
    rewrite (bind_raise _ _ w e w); [done|].
    by rewrite (bind_raise _ _ w e w) by (by rewrite counts_getitem_run, He).
Qed.

Lemma norm_index_out len i :
  i < - Z.of_nat len ∨ Z.of_nat len ≤ i → norm_index len i = Raise IndexError.
Proof.
  intros Hi. unfold norm_index.
  destruct (Z.ltb_spec i 0).
  - destruct (Z.ltb_spec (i + Z.of_nat len) 0); [done|lia].
  - destruct (Z.ltb_spec i 0); [lia|].
    destruct (Z.leb_spec (Z.of_nat len) i); [done|lia].
Qed.

Lemma norm_index_in len i :
  - Z.of_nat len ≤ i < Z.of_nat len →
  ∃ j, (j < len)%nat ∧ norm_index len i = Ok j.
Proof.
  intros Hi. unfold norm_index.
  destruct (Z.ltb_spec i 0).
  - destruct (Z.ltb_spec (i + Z.of_nat len) 0); [lia|].
    destruct (Z.leb_spec (Z.of_nat len) (i + Z.of_nat len)); [lia|].
    simpl. eexists. split; [|done]. lia.
  - destruct (Z.ltb_spec i 0); [lia|].
    destruct (Z.leb_spec (Z.of_nat len) i); [lia|].
    simpl. eexists. split; [|done]. lia.
Qed.

(** X5: a tile index outside the table makes [wavefunction] and
    [coupled_markov_chain] raise [IndexError]; inside the table (negative
    indices count from the end) a direction other than 0..7 raises
    [KeyError].  Neither draws. *)
Theorem wavefunction_bad_arguments w tile neighbor_id :
  (∀ dirs, dirs ∈ self_counts (self w) → ∀ d, is_Some (dirs !! d) ↔ 0 ≤ d < 8) →
  (tile < - Z.of_nat (length (self_counts (self w)))
   ∨ Z.of_nat (length (self_counts (self w))) ≤ tile →
   wavefunction tile neighbor_id w = (Raise IndexError, w) ∧
   coupled_markov_chain [tile] [neighbor_id] w = (Raise IndexError, w)) ∧
  (- Z.of_nat (length (self_counts (self w))) ≤ tile
   < Z.of_nat (length (self_counts (self w))) →
   ¬ (0 ≤ neighbor_id < 8) →
   wavefunction tile neighbor_id w = (Raise KeyError, w) ∧
   coupled_markov_chain [tile] [neighbor_id] w = (Raise KeyError, w)).
Proof.
  intros Hshape. split.
  - intros Hout. apply wavefunction_lookup_error.
    unfold counts_getitem, bind, get_counts, lift, list_getitem.
    by rewrite norm_index_out.
  - intros Hin Hd. apply wavefunction_lookup_error.
    unfold counts_getitem, bind, get_counts, lift, list_getitem.
    destruct (norm_index_in _ _ Hin) as (j & Hj & ->). simpl bindR.
    destruct (lookup_lt_is_Some_2 _ _ Hj) as [dirs Hdirs]. rewrite Hdirs.
    unfold dict_getitem.
    destruct (dirs !! neighbor_id) as [c|] eqn:Hc; [|done].
    exfalso. apply Hd. eapply Hshape; [by eapply list_elem_of_lookup_2|eauto].
Qed.

Lemma ab_world_shape np py dirs :
  dirs ∈ self_counts (self (ab_world np py)) →
  ∀ d, is_Some (dirs !! d) ↔ 0 ≤ d < 8.
Proof.
  intros Hdirs.
  destruct (compute_counts_invariant ab_mapping 2
              (self_counts (self (ab_world np py))) ltac:(vm_compute; reflexivity))
    as [_ Hgood].
  rewrite Forall_forall in Hgood. destruct (Hgood dirs Hdirs) as [Hdom _].
  intros d. rewrite <-elem_of_dom, Hdom.
  assert (Hd8 : dom empty_directions = list_to_set (seqZ 0 8))
    by (vm_compute; reflexivity).
  rewrite Hd8, elem_of_list_to_set, elem_of_seqZ. lia.
Defined.

Lemma wavefunction_bad_arguments_witness :
  (2 < - Z.of_nat (length (self_counts (self (ab_world [] []))))
   ∨ Z.of_nat (length (self_counts (self (ab_world [] [])))) ≤ 2 →
   wavefunction 2 8 (ab_world [] []) = (Raise IndexError, ab_world [] []) ∧
   coupled_markov_chain [2] [8] (ab_world [] []) = (Raise IndexError, ab_world [] [])) ∧
  (- Z.of_nat (length (self_counts (self (ab_world [] [])))) ≤ 2
   < Z.of_nat (length (self_counts (self (ab_world [] [])))) →
   ¬ (0 ≤ 8 < 8) →
   wavefunction 2 8 (ab_world [] []) = (Raise KeyError, ab_world [] []) ∧
   coupled_markov_chain [2] [8] (ab_world [] []) = (Raise KeyError, ab_world [] [])).
Proof.
  apply (wavefunction_bad_arguments (ab_world [] []) 2 8).
  apply ab_world_shape.
Defined.

Lemma total_count_positive (counts : list Counter) t :
  counts ≠ [] →
  (∀ c, c ∈ counts → ∃ k, c !! t = Some k ∧ (0 < k)%nat) →
  (0 < total_count counts t)%nat.
Proof.
  destruct counts as [|c counts]; [done|]. intros _ Hpos.
  destruct (Hpos c) as (k & Hk & Hlt); [left|].
  unfold total_count. simpl. unfold counter_getitem at 1. rewrite Hk. simpl. lia.
Qed.

(** X6: when the constraint distributions have positive counts and share at
    least one key, [coupled_markov_chain] returns, and what it returns is a
    key of every one of them; a key shared by no other is the only possible
    answer. *)
Theorem coupled_markov_chain_success w tiles neighbors counts t :
  zip tiles neighbors ≠ [] →
  (constraint_counts tiles neighbors w).1 = Ok counts →
  (∀ c x k, c ∈ counts → c !! x = Some k → (0 < k)%nat) →
  (∀ c, c ∈ counts → t ∈ dom c) →
  ∃ t' w',
    coupled_markov_chain tiles neighbors w = (Ok t', w') ∧
    (∀ c, c ∈ counts → t' ∈ dom c) ∧
    self w' = self w ∧ py_random w' = py_random w ∧
    ((∀ x, (∀ c, c ∈ counts → x ∈ dom c) → x = t) → t' = t).
Proof.
  intros Hz Hc Hpos Ht.
  pose proof (constraint_counts_nonempty _ _ _ _ Hz Hc) as Hne.
  destruct (valid_tiles_spec counts Hne) as (valid & Hv & Hvalid).
  destruct (valid_tile_counts_spec valid counts) as (vtc & Hvtc & Hl).
  rewrite (coupled_markov_chain_run _ _ _ _ _ _ Hc Hv Hvtc).
  assert (Hin : vtc !! t = Some (total_count counts t)).
  { rewrite Hl. apply decide_True. by apply Hvalid. }
  rewrite decide_False by (intros ->; by rewrite lookup_empty in Hin).
  destruct (sample_counter vtc w) as (t' & w' & Hs & Hdom & Hself & Hpy).
  - intros ->. by rewrite lookup_empty in Hin.
  - intros x k Hx. rewrite Hl in Hx. case_decide as Hxv; [|done].
    injection Hx as <-. apply total_count_positive; [done|].
    intros c Hcin. pose proof (proj1 (Hvalid x) Hxv c Hcin) as Hxc.
    apply elem_of_dom in Hxc as [k Hk]. eauto.
  - exists t', w'. rewrite (valid_tile_counts_dom _ _ _ Hvtc) in Hdom.
    pose proof (proj1 (Hvalid t') Hdom) as Hall.
    split_and!; [done..|]. intros Huniq. by apply Huniq.
Qed.

Lemma coupled_markov_chain_success_witness :
  ∃ t' w',
    coupled_markov_chain [0; 1] [0; 1] (ab_world [7%nat] []) = (Ok t', w') ∧
    (∀ c : Counter, c ∈ [{[1 := 2%nat]}; {[1 := 1%nat]}] → t' ∈ dom c) ∧
    self w' = self (ab_world [7%nat] []) ∧
    py_random w' = py_random (ab_world [7%nat] []) ∧
    ((∀ x, (∀ c : Counter, c ∈ [{[1 := 2%nat]}; {[1 := 1%nat]}] → x ∈ dom c) → x = 1) →
     t' = 1).
Proof.
  apply (coupled_markov_chain_success (ab_world [7%nat] []) [0; 1] [0; 1]).
  - discriminate.
  - vm_compute. reflexivity.
  - intros c x k Hc Hx.
    apply elem_of_cons in Hc as [->|Hc];
      [|apply elem_of_cons in Hc as [->|Hc]; [|by apply elem_of_nil in Hc]];
      apply lookup_singleton_Some in Hx as [_ <-]; lia.
  - intros c Hc.
    apply elem_of_cons in Hc as [->|Hc];
      [|apply elem_of_cons in Hc as [->|Hc]; [|by apply elem_of_nil in Hc]];
      rewrite dom_singleton_L; by apply elem_of_singleton.
Defined.

(** X7: with a single constraint the candidates and their weights are the
    constraint's own distribution, the one [wavefunction] draws from; on an
    empty distribution the intersector raises [AssertionError] where
    [wavefunction] raises [ValueError]. *)
Theorem coupled_markov_chain_single w tile n c :
  (counts_getitem tile n w).1 = Ok c →
  (constraint_counts [tile] [n] w).1 = Ok [c] ∧
  valid_tiles [c] = Ok (dom c) ∧
  valid_tile_counts (dom c) [c] = Ok c ∧
  (c = ∅ →
   coupled_markov_chain [tile] [n] w = (Raise AssertionError, w) ∧
   wavefunction tile n w = (Raise ValueError, w)).
Proof.
  intros Hc.
  assert (H1 : (constraint_counts [tile] [n] w).1 = Ok [c]).
  { unfold constraint_counts. simpl zip.
    apply (mapP_cons_ok (λ '(tile, n), counts_getitem tile n) (tile, n) [] w c []);
      [intros [??]; apply read_only_counts_getitem|done|done]. }
  assert (H2 : valid_tiles [c] = Ok (dom c)).
  { unfold valid_tiles. rewrite list_getitem_0. simpl. f_equal.
    apply set_eq. intros x. rewrite elem_of_intersection. tauto. }
  assert (H3 : valid_tile_counts (dom c) [c] = Ok c).
  { destruct (valid_tile_counts_spec (dom c) [c]) as (vtc & -> & Hl).
    f_equal. apply map_eq. intros x. rewrite Hl.
    destruct (decide (x ∈ dom c)) as [Hx|Hx].
    - apply elem_of_dom in Hx as [k Hk]. rewrite Hk. f_equal.
      unfold total_count. simpl. unfold counter_getitem. rewrite Hk. simpl. lia.
    - by apply not_elem_of_dom in Hx. }
  split_and!; [done..|]. intros ->. split.
  - rewrite (coupled_markov_chain_run w [tile] [n] [∅] (dom (∅ : Counter)) ∅)
      by done.
    by rewrite decide_True.
  - unfold wavefunction.
    rewrite (bind_ok _ _ w ∅ w) by (by rewrite counts_getitem_run, Hc).
    unfold keys. rewrite map_to_list_empty. apply sample_empty.
Qed.

Lemma coupled_markov_chain_single_witness :
  (constraint_counts [1] [7] (ab_world [] [])).1 = Ok [∅] ∧
  valid_tiles [∅] = Ok (dom (∅ : Counter)) ∧
  valid_tile_counts (dom (∅ : Counter)) [∅] = Ok ∅ ∧
  ((∅ : Counter) = ∅ →
   coupled_markov_chain [1] [7] (ab_world [] []) = (Raise AssertionError, ab_world [] []) ∧
   wavefunction 1 7 (ab_world [] []) = (Raise ValueError, ab_world [] [])).
Proof.
  apply (coupled_markov_chain_single (ab_world [] []) 1 7 ∅).
  vm_compute. reflexivity.
Defined.

(** ** Edge cases of the drivers *)

Lemma range_nil n : n ≤ 0 → range n = [].
Proof. intros Hn. unfold range. by apply seqZ_nil. Qed.

Lemma range_nonempty n : 0 < n → range n ≠ [].
Proof.
  intros Hn H. assert (Hin : 0 ∈ range n) by (apply elem_of_range; lia).
  rewrite H in Hin. by apply elem_of_nil in Hin.
Qed.

Lemma random_choice_ok {A} (l : list A) w :
  l ≠ [] →
  ∃ x, x ∈ l ∧
       random_choice l w
       = (Ok x, MkWorld (self w) (np_random w) (pick (py_random w) (length l)).2).
Proof.
  intros Hne. destruct l as [|a l]; [done|]. unfold random_choice, bind, draw_py.
  pose proof (pick_lt (py_random w) (length (a :: l)) ltac:(simpl; lia)) as Hlt.
  destruct (pick (py_random w) (length (a :: l))) as [k tape].
  destruct (lookup_lt_is_Some_2 (a :: l) k Hlt) as [x Hx]. rewrite Hx.
  exists x. split; [by eapply list_elem_of_lookup_2|done].
Qed.

Lemma random_choice_inv {A} (l : list A) w x w' :
  random_choice l w = (Ok x, w') →
  x ∈ l ∧ self w' = self w ∧ np_random w' = np_random w.
Proof.
  destruct l as [|a l]; [discriminate|]. intros H.
  destruct (random_choice_ok (a :: l) w) as (y & Hy & Hr); [done|].
  rewrite Hr in H. by injection H as <- <-.
Qed.

(** X8: with no tiles ([n <= 0]) both drivers raise [IndexError] at the
    choice of the seed, before anything else happens. *)
Theorem generate_no_tiles w row col :
  self_n (self w) ≤ 0 →
  generate row col w = (Raise IndexError, w) ∧
  generate_2 w = (Raise IndexError, w).
Proof.
  intros Hn. unfold generate, generate_2, bind, get_n.
  by rewrite range_nil.
Qed.

Lemma generate_no_tiles_witness :
  generate 3 3 (MkWorld (MkGenerator ab_mapping 0 []) [1%nat] [2%nat])
  = (Raise IndexError, MkWorld (MkGenerator ab_mapping 0 []) [1%nat] [2%nat]) ∧
  generate_2 (MkWorld (MkGenerator ab_mapping 0 []) [1%nat] [2%nat])
  = (Raise IndexError, MkWorld (MkGenerator ab_mapping 0 []) [1%nat] [2%nat]).
Proof.
  apply (generate_no_tiles (MkWorld (MkGenerator ab_mapping 0 []) [1%nat] [2%nat]) 3 3).
  simpl. lia.
Defined.

(** X9: a shape without cells ([row <= 0] or [col <= 0]) is not rejected:
    [generate] returns a mapping that declares that shape and still holds
    the seed tile at (0,0), without consulting the table or numpy's
    source. *)
Theorem generate_empty_shape w row col :
  row ≤ 0 ∨ col ≤ 0 →
  0 < self_n (self w) →
  ∃ tile w',
    generate row col w = (Ok (MkMapping row col {[ (0, 0) := tile ]}), w') ∧
    0 ≤ tile < self_n (self w) ∧
    self w' = self w ∧ np_random w' = np_random w.
Proof.
  intros Hshape Hn. unfold generate.
  assert (Hscan : product (range row) (range col) = []).
  { destruct Hshape as [Hr|Hc].
    - by rewrite (range_nil row).
    - rewrite (range_nil col) by done. unfold product.
      induction (range row); [done|]. done. }
  rewrite Hscan.
  destruct (random_choice_ok (range (self_n (self w))) w (range_nonempty _ Hn))
    as (tile & Htile & Hr).
  apply elem_of_range in Htile.
  eexists tile, _. split; [|split; [done|]].
  - unfold bind at 1, get_n. rewrite (bind_ok _ _ _ _ _ Hr). done.
  - done.
Qed.

Lemma generate_empty_shape_witness :
  ∃ tile w',
    generate 0 5 (ab_world [] [3%nat])
    = (Ok (MkMapping 0 5 {[ (0, 0) := tile ]}), w') ∧
    0 ≤ tile < self_n (self (ab_world [] [3%nat])) ∧
    self w' = self (ab_world [] [3%nat]) ∧
    np_random w' = np_random (ab_world [] [3%nat]).
Proof.
  apply (generate_empty_shape (ab_world [] [3%nat]) 0 5).
  - left. lia.
  - vm_compute. reflexivity.
Defined.

(** ** The mapping [generate] returns *)

Lemma length_product {A B} (l : list A) (k : list B) :
  length (product l k) = (length l * length k)%nat.
Proof.
  unfold product. induction l as [|x l IH]; [done|].
  simpl. rewrite length_app, length_map, IH. done.
Qed.

(** X10: for a shape with at least one row and one column a returned
    mapping declares that shape and has exactly [row * col] entries, those
    with first coordinate below [row] and second below [col]. *)
Theorem generate_entries w row col m w' :
  1 ≤ row → 1 ≤ col →
  generate row col w = (Ok m, w') →
  info_row m = row ∧ info_col m = col ∧
  (∀ h k, is_Some (cells m !! (h, k)) ↔ 0 ≤ h < row ∧ 0 ≤ k < col) ∧
  size (cells m) = Z.to_nat (row * col).
Proof.
  intros Hrow Hcol Hg.
  destruct (generate_keys _ _ _ _ _ Hg) as (Hr & Hc & Hkeys).
  assert (Hk : ∀ h k, is_Some (cells m !! (h, k)) ↔ 0 ≤ h < row ∧ 0 ≤ k < col).
  { intros h k. rewrite Hkeys. split; [|tauto]. intros [[= -> ->]|H]; [lia|done]. }
  split_and!; [done..|].
  rewrite <-size_dom.
  assert (Hdom : dom (cells m) = list_to_set (product (range row) (range col))).
  { apply set_eq. intros [h k].
    by rewrite elem_of_dom, Hk, elem_of_list_to_set, elem_of_product,
      !elem_of_range. }
  rewrite Hdom, size_list_to_set by (apply NoDup_product; apply range_sorted).
  rewrite length_product. unfold range. rewrite !length_seqZ. lia.
Qed.

Lemma generate_entries_witness :
  info_row (MkMapping 2 2 {[ (0, 0) := 0; (0, 1) := 0; (1, 0) := 1; (1, 1) := 1 ]}) = 2 ∧
  info_col (MkMapping 2 2 {[ (0, 0) := 0; (0, 1) := 0; (1, 0) := 1; (1, 1) := 1 ]}) = 2 ∧
  (∀ h k,
     is_Some (cells (MkMapping 2 2 {[ (0, 0) := 0; (0, 1) := 0; (1, 0) := 1; (1, 1) := 1 ]})
              !! (h, k)) ↔ 0 ≤ h < 2 ∧ 0 ≤ k < 2) ∧
  size (cells (MkMapping 2 2 {[ (0, 0) := 0; (0, 1) := 0; (1, 0) := 1; (1, 1) := 1 ]}))
  = Z.to_nat (2 * 2).
Proof.
  apply (generate_entries (ab_world [] []) 2 2 _
           (MkWorld (generator_of ab_mapping 2) [] [])).
  - lia.
  - lia.
  - vm_compute. reflexivity.
Defined.

Lemma mapP_Forall2 {A B} (f : A → Py B) l w bs :
  (∀ a, read_only (f a)) →
  (mapP f l w).1 = Ok bs →
  Forall2 (λ a b, (f a w).1 = Ok b) l bs.
Proof.
  intros Hf. revert bs. induction l as [|a l IH]; intros bs Hbs.
  - simpl in Hbs. injection Hbs as <-. constructor.
  - apply mapP_cons_inv in Hbs as (b & bs' & -> & Ha & Hl); [|done].
    constructor; auto.
Qed.

Lemma coupled_markov_chain_inv tiles neighbors w t w' :
  coupled_markov_chain tiles neighbors w = (Ok t, w') →
  self w' = self w ∧
  zip tiles neighbors ≠ [] ∧
  ∀ s p, (s, p) ∈ zip tiles neighbors → seen_next w s p t.
Proof.
  intros H. split.
  { pose proof (preserves_self_coupled_markov_chain tiles neighbors w) as Hs.
    by rewrite H in Hs. }
  unfold coupled_markov_chain in H. fold (constraint_counts tiles neighbors) in H.
  apply bind_inv in H as (counts & w1 & Hc & H).
  rewrite constraint_counts_run in Hc. injection Hc as Hc <-.
  apply bind_inv in H as (valid & w2 & Hv & H). injection Hv as Hv <-.
  apply bind_inv in H as (vtc & w3 & Hvtc & H). injection Hvtc as Hvtc <-.
  destruct (decide (vtc = ∅)); [discriminate|].
  apply sample_elem_of, elem_of_keys in H.
  rewrite (valid_tile_counts_dom _ _ _ Hvtc) in H.
  assert (Hne : counts ≠ []).
  { intros ->. unfold valid_tiles in Hv. by rewrite list_getitem_nil in Hv. }
  destruct (valid_tiles_spec counts Hne) as (valid' & Hv' & Hvalid).
  rewrite Hv in Hv'. injection Hv' as <-.
  pose proof (mapP_Forall2 (λ '(tile, n), counts_getitem tile n) _ w counts
                ltac:(intros [??]; apply read_only_counts_getitem) Hc) as Hall.
  split.
  - intros Hz. rewrite Hz in Hall. by apply Forall2_nil_inv_l in Hall.
  - intros s p Hin.
    apply list_elem_of_lookup in Hin as [i Hi].
    destruct (Forall2_lookup_l _ _ _ _ _ Hall Hi) as (c & Hci & Hsp).
    exists c. split; [done|]. apply Hvalid; [done|].
    by eapply list_elem_of_lookup_2.
Qed.

Lemma generate_step_inv m hk w m' w' :
  generate_step m hk w = (Ok m', w') →
  (is_Some (m !! hk) ∧ m' = m ∧ w' = w) ∨
  (m !! hk = None ∧
   ∃ neighbor_tiles positions t,
     gather m hk = Ok (neighbor_tiles, positions) ∧
     coupled_markov_chain neighbor_tiles positions w = (Ok t, w') ∧
     m' = <[hk := t]> m).
Proof.
  unfold generate_step. destruct (m !! hk) as [x|] eqn:Hm.
  - intros [= <- <-]. left. eauto.
  - intros H. right. split; [done|].
    apply bind_inv in H as ([nt ps] & w1 & Hg & H). injection Hg as Hg <-.
    apply bind_inv in H as (t & w2 & Hc & H). injection H as <- <-.
    by exists nt, ps, t.
Qed.

Lemma gather_fold_elem m hk l nt ps nt' ps' :
  length nt = length ps →
  foldR (gather_step m hk) (nt, ps) l = Ok (nt', ps') →
  (∀ x, x ∈ zip nt ps → x ∈ zip nt' ps') ∧
  ∀ n s, n ∈ l → m !! _tuple_sum hk n = Some s →
         ∃ p, inverse_neighbor !! n = Some p ∧ (s, p) ∈ zip nt' ps'.
Proof.
  revert nt ps. induction l as [|n l IH]; intros nt ps Hlen; simpl.
  - intros [= <- <-]. split; [done|]. intros n s Hn. by apply elem_of_nil in Hn.
  - destruct (m !! _tuple_sum hk n) as [s|] eqn:Hm; simpl.
    + unfold dict_getitem. destruct (inverse_neighbor !! n) as [p|] eqn:Hp;
        [|discriminate]. simpl. intros Hf.
      destruct (IH (nt ++ [s]) (ps ++ [p])) as [Hsub Hnew];
        [by rewrite !length_app, Hlen|done|].
      rewrite zip_with_app in Hsub by done. split.
      * intros x Hx. apply Hsub, elem_of_app. by left.
      * intros n' s' Hn' Hs'. apply elem_of_cons in Hn' as [->|Hn']; [|eauto].
        exists p. split; [done|]. rewrite Hm in Hs'. injection Hs' as <-.
        apply Hsub, elem_of_app. right. simpl. left.
    + intros Hf. destruct (IH nt ps Hlen Hf) as [Hsub Hnew].
      split; [done|]. intros n' s' Hn' Hs'.
      apply elem_of_cons in Hn' as [->|Hn']; [congruence|eauto].
Qed.

Lemma generate_step_seen m hk w m' w' :
  generate_step m hk w = (Ok m', w') → m !! hk = None →
  self w' = self w ∧
  ∃ t, m' = <[hk := t]> m ∧
       ∀ n s p, n ∈ adjacent_neighbors → m !! _tuple_sum hk n = Some s →
                inverse_neighbor !! n = Some p → seen_next w s p t.
Proof.
  intros Hs Hnone. apply generate_step_inv in Hs as [([x Hx] & _)|Hs]; [congruence|].
  destruct Hs as (_ & nt & ps & t & Hg & Hc & ->).
  apply coupled_markov_chain_inv in Hc as (Hself & _ & Hseen).
  split; [done|]. exists t. split; [done|]. intros n s p Hn Hm Hp.
  destruct (gather_fold_elem m hk adjacent_neighbors [] [] nt ps eq_refl Hg)
    as [_ Hnew].
  destruct (Hnew n s Hn Hm) as (p' & Hp' & Hin).
  rewrite Hp in Hp'. injection Hp' as <-. by apply Hseen.
Qed.

Lemma seen_next_self w1 w2 s p t :
  self w1 = self w2 → seen_next w1 s p t → seen_next w2 s p t.
Proof.
  intros Hself (c & Hc & Ht). exists c. split; [|done]. rewrite <-Hc.
  unfold counts_getitem, bind, get_counts, lift. simpl. rewrite Hself.
  by destruct (list_getitem (self_counts (self w2)) s).
Qed.

Lemma backward_consistent_self w1 w2 m :
  self w1 = self w2 → backward_consistent w1 m → backward_consistent w2 m.
Proof.
  intros Hself Hb a n s t p Hn Hlt Ha Hs Hp.
  eapply seen_next_self; [done|]. by eapply Hb.
Qed.

Lemma tuple_sum_adjacent_ne a n : n ∈ adjacent_neighbors → _tuple_sum a n ≠ a.
Proof.
  destruct a as [h k]. intros Hn.
  repeat (apply elem_of_cons in Hn as [->|Hn]; [simpl; intros [= ? ?]; lia|]).
  by apply elem_of_nil in Hn.
Qed.

Lemma foldP_generate_step_consistent l m w m' w' :
  StronglySorted lex_lt l →
  (∀ a b, a ∈ dom m → b ∈ l → a = b ∨ lex_lt a b) →
  backward_consistent w m →
  foldP generate_step m l w = (Ok m', w') →
  backward_consistent w m'.
Proof.
  revert m w. induction l as [|hk l IH]; intros m w Hsorted Hbefore Hcons; simpl.
  - by intros [= <- _].
  - intros H. apply bind_inv in H as (m1 & w1 & Hstep & Hfold).
    apply StronglySorted_cons in Hsorted as [Hhk Hsorted].
    rewrite Forall_forall in Hhk.
    destruct (m !! hk) as [x|] eqn:Hm.
    + apply generate_step_inv in Hstep as [(_ & -> & ->)|[Hnone _]]; [|congruence].
      apply (IH m w); [done| |done|done].
      intros a b Ha Hb. apply Hbefore; [done|by right].
    + destruct (generate_step_seen _ _ _ _ _ Hstep Hm) as (Hself & t & -> & Hseen).
      apply (backward_consistent_self w1 w); [done|].
      apply (IH (<[hk := t]> m) w1); [done| | |done].
      * intros a b Ha Hb. rewrite dom_insert_L in Ha.
        apply elem_of_union in Ha as [Ha|Ha].
        -- apply elem_of_singleton in Ha as ->. right. by apply Hhk.
        -- apply Hbefore; [done|by right].
      * apply (backward_consistent_self w w1); [done|].
        assert (Hlt : ∀ a, a ∈ dom m → lex_lt a hk).
        { intros a Ha. destruct (Hbefore a hk Ha ltac:(left)) as [->|Hlt]; [|done].
          apply elem_of_dom in Ha as [? Ha]. congruence. }
        intros a n s t' p Hn Hord Ha Hs Hp.
        destruct (decide (a = hk)) as [->|Hne].
        -- rewrite lookup_insert_eq in Ha. injection Ha as <-.
           rewrite lookup_insert_ne in Hs
             by (intros Heq; by apply (tuple_sum_adjacent_ne hk n)).
           by eapply Hseen.
        -- rewrite lookup_insert_ne in Ha by done.
           destruct (decide (_tuple_sum a n = hk)) as [Heq|Hne'].
           ++ rewrite Heq in Hord.
              assert (Ha' : lex_lt a hk) by (apply Hlt, elem_of_dom; eauto).
              unfold lex_lt in Hord, Ha'. lia.
           ++ rewrite lookup_insert_ne in Hs by done. by eapply Hcons.
Qed.

(** X11: in a mapping returned by [generate], the tile of a cell [(h, k)]
    is recorded in the table as a direction-3 neighbour of the tile at
    [(h, k - 1)] and as a direction-0 neighbour of the tile at [(h - 1, k)],
    whenever those cells are in the mapping: every adjacency the scan
    constrains is one that was seen in training. *)
Theorem generate_adjacent_seen w row col m w' h k t s :
  generate row col w = (Ok m, w') →
  cells m !! (h, k) = Some t →
  (cells m !! (h, k - 1) = Some s → seen_next w s 3 t) ∧
  (cells m !! (h - 1, k) = Some s → seen_next w s 0 t).
Proof.
  unfold generate. intros H.
  apply bind_inv in H as (n & w1 & Hn & H). injection Hn as <- <-.
  apply bind_inv in H as (tile & w2 & Hseed & H).
  apply random_choice_inv in Hseed as (Htile & Hself & _).
  apply bind_inv in H as (cs & w3 & Hfold & H). injection H as <- _. simpl.
  assert (Hcons : backward_consistent w cs).
  { apply (backward_consistent_self w2 w); [done|].
    eapply foldP_generate_step_consistent; [| | |exact Hfold].
    - apply product_sorted; apply range_sorted.
    - intros a [b1 b2] Ha Hb. rewrite dom_singleton_L in Ha.
      apply elem_of_singleton in Ha as ->.
      apply elem_of_product in Hb as [Hb1 Hb2]. apply elem_of_range in Hb1, Hb2.
      destruct (decide ((0, 0) = (b1, b2))) as [|Hne]; [by left|right].
      unfold lex_lt. simpl.
      assert (b1 ≠ 0 ∨ b2 ≠ 0) by (destruct (decide (b1 = 0)); [right|left]; congruence).
      lia.
    - intros a n' s' t' p Hn' Hlt Ha Hs.
      apply lookup_singleton_Some in Ha as [<- _].
      apply lookup_singleton_Some in Hs as [Heq _].
      symmetry in Heq. by apply tuple_sum_adjacent_ne in Heq. }
  intros Ht. split; intros Hs.
  - apply (Hcons (h, k) (0, -1) s t 3); [by repeat constructor| |done| |done].
    + right. simpl. lia.
    + simpl. replace (h + 0) with h by lia.
      by replace (k + -1) with (k - 1) by lia.
  - apply (Hcons (h, k) (-1, 0) s t 0).
    + apply elem_of_cons. right. apply elem_of_cons. right. left.
    + left. simpl. lia.
    + done.
    + simpl. replace (h + -1) with (h - 1) by lia.
      by replace (k + 0) with k by lia.
    + done.
Qed.

Lemma generate_adjacent_seen_witness :
  (cells (MkMapping 2 2 {[ (0, 0) := 0; (0, 1) := 0; (1, 0) := 1; (1, 1) := 1 ]})
   !! (1, 1 - 1) = Some 1 → seen_next (ab_world [] []) 1 3 1) ∧
  (cells (MkMapping 2 2 {[ (0, 0) := 0; (0, 1) := 0; (1, 0) := 1; (1, 1) := 1 ]})
   !! (1 - 1, 1) = Some 1 → seen_next (ab_world [] []) 1 0 1).
Proof.
  apply (generate_adjacent_seen (ab_world [] []) 2 2 _
           (MkWorld (generator_of ab_mapping 2) [] []) 1 1 1 1).
  - vm_compute. reflexivity.
  - vm_compute. reflexivity.
Defined.

Lemma counts_getitem_inv s p w c :
  (counts_getitem s p w).1 = Ok c →
  ∃ dirs, dirs ∈ self_counts (self w) ∧ dirs !! p = Some c.
Proof.
  unfold counts_getitem, bind, get_counts, lift, list_getitem. simpl.
  destruct (norm_index _ s) as [j|]; simpl; [|discriminate].
  destruct (self_counts (self w) !! j) as [dirs|] eqn:Hj; simpl; [|discriminate].
  unfold dict_getitem. destruct (dirs !! p) as [c'|] eqn:Hp; simpl; [|discriminate].
  intros [= <-]. exists dirs. split; [by eapply list_elem_of_lookup_2|done].
Qed.

Lemma foldP_generate_step_values (P : Z → Prop) l m w m' w' :
  (∀ s p t, seen_next w s p t → P t) →
  (∀ a t, m !! a = Some t → P t) →
  foldP generate_step m l w = (Ok m', w') →
  ∀ a t, m' !! a = Some t → P t.
Proof.
  revert m w. induction l as [|hk l IH]; intros m w Hseen Hm; simpl.
  - by intros [= <- _].
  - intros H. apply bind_inv in H as (m1 & w1 & Hstep & Hfold).
    apply generate_step_inv in Hstep
      as [(_ & -> & ->)|(Hnone & nt & ps & t & Hg & Hc & ->)].
    + by apply (IH m w).
    + apply coupled_markov_chain_inv in Hc as (Hself & Hne & Hc).
      apply (IH (<[hk := t]> m) w1); [| |done].
      * intros s p t' Hs. apply (Hseen s p). by apply (seen_next_self w1 w).
      * intros a t' Ha. destruct (decide (a = hk)) as [->|Hne'].
        -- rewrite lookup_insert_eq in Ha. injection Ha as <-.
           destruct (zip nt ps) as [|[s p] z] eqn:Hz; [done|].
           apply (Hseen s p), Hc. left.
        -- rewrite lookup_insert_ne in Ha by done. eauto.
Qed.

Lemma generate_values w row col m w' :
  _compute_counts (self_mapping (self w)) (self_n (self w))
  = Ok (self_counts (self w)) →
  (∀ p t, cells (self_mapping (self w)) !! p = Some t → 0 ≤ t < self_n (self w)) →
  generate row col w = (Ok m, w') →
  ∀ p t, cells m !! p = Some t → 0 ≤ t < self_n (self w).
Proof.
  intros Hbuilt Htrain. unfold generate. intros H.
  apply bind_inv in H as (n & w1 & Hn & H). injection Hn as <- <-.
  apply bind_inv in H as (tile & w2 & Hseed & H).
  apply random_choice_inv in Hseed as (Htile & Hself & _).
  apply elem_of_range in Htile.
  apply bind_inv in H as (cs & w3 & Hfold & H). injection H as <- _. simpl.
  apply (foldP_generate_step_values (λ t, 0 ≤ t < self_n (self w)) _ _ _ _ _)
    with (3 := Hfold).
  - intros s p t (c & Hc & Ht)%(seen_next_self w2 w); [|done].
    apply counts_getitem_inv in Hc as (dirs & Hdirs & Hp).
    apply compute_counts_invariant in Hbuilt as [_ Hgood].
    rewrite Forall_forall in Hgood. destruct (Hgood dirs Hdirs) as [_ Hkeys].
    apply elem_of_dom in Ht as [k Hk].
    destruct (Hkeys p c t k Hp Hk) as [_ [pos Hpos]]. eauto.
  - intros a t Ha. by apply lookup_singleton_Some in Ha as [_ <-].
Qed.

(** X12: if the generator's table is the one [_compute_counts] builds from
    its training mapping and the training tiles lie in [0, n), then every
    tile of a mapping returned by [generate] lies in [0, n). *)
Theorem generate_tiles_in_range w row col m w' p t :
  _compute_counts (self_mapping (self w)) (self_n (self w))
  = Ok (self_counts (self w)) →
  (∀ p t, cells (self_mapping (self w)) !! p = Some t → 0 ≤ t < self_n (self w)) →
  generate row col w = (Ok m, w') →
  cells m !! p = Some t →
  0 ≤ t < self_n (self w).
Proof.
  intros Hbuilt Htrain Hg. by apply (generate_values w row col m w').
Qed.

Lemma generate_tiles_in_range_witness :
  0 ≤ 1 < self_n (self (ab_world [] [])).
Proof.
  apply (generate_tiles_in_range (ab_world [] []) 2 2
           (MkMapping 2 2 {[ (0, 0) := 0; (0, 1) := 0; (1, 0) := 1; (1, 1) := 1 ]})
           (MkWorld (generator_of ab_mapping 2) [] []) (1, 0) 1).
  - vm_compute. reflexivity.
  - apply ab_mapping_tiles.
  - vm_compute. reflexivity.
  - vm_compute. reflexivity.
Defined.

(** ** The mapping [generate_2] returns *)

Lemma wavefunction_inv tile neighbor_id w t w' :
  wavefunction tile neighbor_id w = (Ok t, w') →
  seen_next w tile neighbor_id t ∧ self w' = self w.
Proof.
  intros H. split.
  - unfold wavefunction in H. apply bind_inv in H as (c & w1 & Hc & H).
    rewrite counts_getitem_run in Hc. injection Hc as Hc <-.
    exists c. split; [done|]. by apply sample_elem_of, elem_of_keys in H.
  - pose proof (preserves_self_wavefunction tile neighbor_id w) as Hs.
    by rewrite H in Hs.
Qed.

(** X13: a mapping returned by [generate_2] declares the shape 2 x 2 and
    holds exactly the four cells (0,0), (1,0), (0,1), (1,1).  The tile at
    (1,1) was seen in direction 7 of the seed; the tile at (1,0) was seen in
    direction 2 of the seed and direction 3 of the tile at (1,1); the tile at
    (0,1) in direction 1 of the seed and direction 0 of the tile at (1,1). *)
Theorem generate_2_result w m w' :
  generate_2 w = (Ok m, w') →
  info_row m = 2 ∧ info_col m = 2 ∧
  dom (cells m) = {[ (0, 0); (1, 0); (0, 1); (1, 1) ]} ∧
  ∃ seed diag x y,
    cells m !! (0, 0) = Some seed ∧ 0 ≤ seed < self_n (self w) ∧
    cells m !! (1, 1) = Some diag ∧ seen_next w seed 7 diag ∧
    cells m !! (1, 0) = Some x ∧ seen_next w seed 2 x ∧ seen_next w diag 3 x ∧
    cells m !! (0, 1) = Some y ∧ seen_next w seed 1 y ∧ seen_next w diag 0 y.
Proof.
  unfold generate_2. intros H.
  apply bind_inv in H as (n & w1 & Hn & H). injection Hn as <- <-.
  apply bind_inv in H as (seed & w2 & Hseed & H).
  apply random_choice_inv in Hseed as (Hrange & Hself2 & _).
  apply elem_of_range in Hrange.
  apply bind_inv in H as (diag & w3 & Hdiag & H).
  apply wavefunction_inv in Hdiag as [Hsd Hself3].
  apply bind_inv in H as (x & w4 & Hx & H).
  apply coupled_markov_chain_inv in Hx as (Hself4 & _ & Hsx).
  apply bind_inv in H as (y & w5 & Hy & H).
  apply coupled_markov_chain_inv in Hy as (Hself5 & _ & Hsy).
  injection H as <- _. simpl.
  assert (H3 : self w3 = self w) by congruence.
  assert (H4 : self w4 = self w) by congruence.
  split_and!; [done..| |].
  - rewrite !dom_insert_L, dom_singleton_L. apply set_eq. intros p.
    rewrite !elem_of_union, !elem_of_singleton. tauto.
  - assert (S1 : seen_next w seed 7 diag) by (by apply (seen_next_self w2 w)).
    assert (S2 : seen_next w seed 2 x).
    { apply (seen_next_self w3 w); [done|]. apply Hsx. left. }
    assert (S3 : seen_next w diag 3 x).
    { apply (seen_next_self w3 w); [done|]. apply Hsx. right. left. }
    assert (S4 : seen_next w seed 1 y).
    { apply (seen_next_self w4 w); [done|]. apply Hsy. left. }
    assert (S5 : seen_next w diag 0 y).
    { apply (seen_next_self w4 w); [done|]. apply Hsy. right. left. }
    exists seed, diag, x, y.
    repeat (split; [first [done | lia]|]). done.
Qed.

Lemma generate_2_result_witness :
  info_row (MkMapping 2 2 {[ (0, 0) := 0; (1, 1) := 0; (1, 0) := 0; (0, 1) := 0 ]}) = 2 ∧
  info_col (MkMapping 2 2 {[ (0, 0) := 0; (1, 1) := 0; (1, 0) := 0; (0, 1) := 0 ]}) = 2 ∧
  dom (cells (MkMapping 2 2 {[ (0, 0) := 0; (1, 1) := 0; (1, 0) := 0; (0, 1) := 0 ]}))
  = {[ (0, 0); (1, 0); (0, 1); (1, 1) ]} ∧
  ∃ seed diag x y,
    cells (MkMapping 2 2 {[ (0, 0) := 0; (1, 1) := 0; (1, 0) := 0; (0, 1) := 0 ]})
    !! (0, 0) = Some seed ∧
    0 ≤ seed < self_n (self (flat_world [] [])) ∧
    cells (MkMapping 2 2 {[ (0, 0) := 0; (1, 1) := 0; (1, 0) := 0; (0, 1) := 0 ]})
    !! (1, 1) = Some diag ∧
    seen_next (flat_world [] []) seed 7 diag ∧
    cells (MkMapping 2 2 {[ (0, 0) := 0; (1, 1) := 0; (1, 0) := 0; (0, 1) := 0 ]})
    !! (1, 0) = Some x ∧
    seen_next (flat_world [] []) seed 2 x ∧ seen_next (flat_world [] []) diag 3 x ∧
    cells (MkMapping 2 2 {[ (0, 0) := 0; (1, 1) := 0; (1, 0) := 0; (0, 1) := 0 ]})
    !! (0, 1) = Some y ∧
    seen_next (flat_world [] []) seed 1 y ∧ seen_next (flat_world [] []) diag 0 y.
Proof.
  apply (generate_2_result (flat_world [] []) _
           (MkWorld (generator_of flat_mapping 1) [] [])).
  vm_compute. reflexivity.
Defined.

(** ** How [generate] can fail *)

(** The table of [w] is the one built from a training mapping whose tiles
    lie in [0, n): it has [n] entries with the eight direction keys, its
    counts are positive and its tile ids lie in [0, n). *)
Lemma trained_table w :
  _compute_counts (self_mapping (self w)) (self_n (self w))
  = Ok (self_counts (self w)) →
  (∀ p t, cells (self_mapping (self w)) !! p = Some t → 0 ≤ t < self_n (self w)) →
  length (self_counts (self w)) = Z.to_nat (self_n (self w)) ∧
  ∀ dirs, dirs ∈ self_counts (self w) →
    (∀ d, 0 ≤ d < 8 → is_Some (dirs !! d)) ∧
    ∀ d c x k, dirs !! d = Some c → c !! x = Some k →
               (0 < k)%nat ∧ 0 ≤ x < self_n (self w).
Proof.
  intros [Hlen Hgood]%compute_counts_invariant Htrain. split; [done|].
  intros dirs Hdirs. rewrite Forall_forall in Hgood.
  destruct (Hgood dirs Hdirs) as [Hdom Hkeys]. split.
  - intros d Hd. apply elem_of_dom. rewrite Hdom. apply elem_of_dom.
    rewrite empty_directions_lookup by done. eauto.
  - intros d c x k Hd Hx. destruct (Hkeys d c x k Hd Hx) as [Hk [p Hp]].
    split; [done|eauto].
Qed.

Lemma mapP_ok {A B} (f : A → Py B) l w :
  (∀ a, read_only (f a)) →
  (∀ a, a ∈ l → ∃ b, (f a w).1 = Ok b) →
  ∃ bs, (mapP f l w).1 = Ok bs.
Proof.
  intros Hf. induction l as [|a l IH]; intros Hl.
  - by exists [].
  - destruct (Hl a) as [b Hb]; [left|].
    destruct IH as [bs Hbs]; [intros a' Ha'; apply Hl; by right|].
    exists (b :: bs). by apply mapP_cons_ok.
Qed.

Lemma coupled_markov_chain_total w tiles neighbors :
  length (self_counts (self w)) = Z.to_nat (self_n (self w)) →
  (∀ dirs, dirs ∈ self_counts (self w) →
     (∀ d, 0 ≤ d < 8 → is_Some (dirs !! d)) ∧
     ∀ d c x k, dirs !! d = Some c → c !! x = Some k →
                (0 < k)%nat ∧ 0 ≤ x < self_n (self w)) →
  zip tiles neighbors ≠ [] →
  (∀ s p, (s, p) ∈ zip tiles neighbors → 0 ≤ s < self_n (self w) ∧ 0 ≤ p < 8) →
  (∃ t w', coupled_markov_chain tiles neighbors w = (Ok t, w') ∧
           0 ≤ t < self_n (self w) ∧ self w' = self w) ∨
  coupled_markov_chain tiles neighbors w = (Raise AssertionError, w).
Proof.
  intros Hlen Htable Hz Hargs.
  destruct (mapP_ok (λ '(tile, n), counts_getitem tile n) (zip tiles neighbors) w)
    as [counts Hc].
  { intros [??]. apply read_only_counts_getitem. }
  { intros [s p] Hin. destruct (Hargs s p Hin) as [Hs Hp].
    unfold counts_getitem, bind, get_counts, lift. simpl.
    destruct (lookup_lt_is_Some_2 (self_counts (self w)) (Z.to_nat s)) as [dirs Hd];
      [lia|].
    rewrite (list_getitem_in_range _ s dirs) by (done || lia).
    destruct (Htable dirs (list_elem_of_lookup_2 _ _ _ Hd)) as [Hkeys _].
    destruct (Hkeys p Hp) as [c Hcp]. exists c. unfold dict_getitem.
    by rewrite Hcp. }
  fold (constraint_counts tiles neighbors) in Hc.
  pose proof (constraint_counts_nonempty _ _ _ _ Hz Hc) as Hne.
  assert (Hfrom : ∀ c, c ∈ counts →
            ∀ x k, c !! x = Some k → (0 < k)%nat ∧ 0 ≤ x < self_n (self w)).
  { intros c Hin x k Hx.
    pose proof (mapP_Forall2 (λ '(tile, n), counts_getitem tile n) _ w counts
                  ltac:(intros [??]; apply read_only_counts_getitem) Hc) as Hall.
    apply list_elem_of_lookup in Hin as [i Hi].
    destruct (Forall2_lookup_r _ _ _ _ _ Hall Hi) as ([s p] & _ & Hsp).
    apply counts_getitem_inv in Hsp as (dirs & Hdirs & Hp).
    destruct (Htable dirs Hdirs) as [_ Hk]. eauto. }
  destruct (valid_tiles_spec counts Hne) as (valid & Hv & Hvalid).
  destruct (valid_tile_counts_spec valid counts) as (vtc & Hvtc & Hl).
  rewrite (coupled_markov_chain_run _ _ _ _ _ _ Hc Hv Hvtc).
  destruct (decide (vtc = ∅)) as [|Hvne]; [by right|left].
  destruct (sample_counter vtc w Hvne) as (t & w' & Hs & Hdom & Hself & _).
  - intros x k Hx. rewrite Hl in Hx. case_decide as Hxv; [|done].
    injection Hx as <-. apply total_count_positive; [done|].
    intros c Hcin. pose proof (proj1 (Hvalid x) Hxv c Hcin) as Hxc.
    apply elem_of_dom in Hxc as [k Hk]. exists k. split; [done|].
    by destruct (Hfrom c Hcin x k Hk).
  - exists t, w'. split; [done|]. split; [|done].
    rewrite (valid_tile_counts_dom _ _ _ Hvtc) in Hdom.
    destruct counts as [|c counts]; [done|].
    pose proof (proj1 (Hvalid t) Hdom c ltac:(left)) as Htc.
    apply elem_of_dom in Htc as [k Hk]. by destruct (Hfrom c ltac:(left) t k Hk).
Qed.

Lemma inverse_neighbor_range n p : inverse_neighbor !! n = Some p → 0 ≤ p < 8.
Proof.
  unfold inverse_neighbor. intros H%elem_of_list_to_map_2.
  repeat (apply elem_of_cons in H as [[= _ ->]|H]; [lia|]).
  by apply elem_of_nil in H.
Qed.

Lemma gather_fold_from m hk (Q : Z * Z → Prop) l nt ps nt' ps' :
  length nt = length ps →
  (∀ s p a n, m !! a = Some s → inverse_neighbor !! n = Some p → Q (s, p)) →
  (∀ x, x ∈ zip nt ps → Q x) →
  foldR (gather_step m hk) (nt, ps) l = Ok (nt', ps') →
  ∀ x, x ∈ zip nt' ps' → Q x.
Proof.
  intros Hlen HQ. revert nt ps Hlen. induction l as [|n l IH];
    intros nt ps Hlen Hacc; simpl.
  - by intros [= <- <-].
  - destruct (m !! _tuple_sum hk n) as [s|] eqn:Hm; simpl; [|by apply IH].
    unfold dict_getitem. destruct (inverse_neighbor !! n) as [p|] eqn:Hp;
      [|discriminate]. simpl.
    apply IH; [by rewrite !length_app, Hlen|].
    intros x. rewrite zip_with_app by done.
    intros [Hx|Hx]%elem_of_app; [by apply Hacc|].
    apply elem_of_cons in Hx as [->|Hx]; [by eapply HQ|by apply elem_of_nil in Hx].
Qed.

Lemma generate_step_skip m hk w x :
  m !! hk = Some x → generate_step m hk w = (Ok m, w).
Proof. unfold generate_step. by intros ->. Qed.

Lemma generate_step_run m hk w nt ps :
  m !! hk = None → gather m hk = Ok (nt, ps) →
  generate_step m hk w
  = match coupled_markov_chain nt ps w with
    | (Ok t, w') => (Ok (<[hk := t]> m), w')
    | (Raise e, w') => (Raise e, w')
    end.
Proof.
  intros Hm Hg. unfold generate_step. rewrite Hm, Hg.
  unfold lift, bind. simpl. by destruct (coupled_markov_chain nt ps w) as [[t|e] w'].
Qed.

Lemma seed_union_snoc (pre : list (Z * Z)) hk :
  ({[ (0, 0) ]} ∪ list_to_set (pre ++ [hk]) : gset (Z * Z))
  = ({[ (0, 0) ]} ∪ list_to_set pre) ∪ {[ hk ]}.
Proof.
  rewrite list_to_set_app_L. simpl. by rewrite union_empty_r_L, (assoc_L (∪)).
Qed.

Lemma foldP_generate_step_total row col post pre m w :
  length (self_counts (self w)) = Z.to_nat (self_n (self w)) →
  (∀ dirs, dirs ∈ self_counts (self w) →
     (∀ d, 0 ≤ d < 8 → is_Some (dirs !! d)) ∧
     ∀ d c x k, dirs !! d = Some c → c !! x = Some k →
                (0 < k)%nat ∧ 0 ≤ x < self_n (self w)) →
  product (range row) (range col) = pre ++ post →
  dom m = {[ (0, 0) ]} ∪ list_to_set pre →
  (∀ a s, m !! a = Some s → 0 ≤ s < self_n (self w)) →
  (∃ m' w', foldP generate_step m post w = (Ok m', w')) ∨
  (∃ w', foldP generate_step m post w = (Raise AssertionError, w')).
Proof.
  revert pre m w. induction post as [|[h k] post IH];
    intros pre m w Hlen Htable Hscan Hdom Hvals.
  - left. by exists m, w.
  - simpl foldP.
    assert (Hscan' : product (range row) (range col) = (pre ++ [(h, k)]) ++ post)
      by (by rewrite <-app_assoc).
    destruct (m !! (h, k)) as [x|] eqn:Hm.
    + rewrite (bind_ok _ _ w m w) by (by eapply generate_step_skip).
      apply (IH (pre ++ [(h, k)])); [done..| |done].
      rewrite seed_union_snoc, <-Hdom, (comm_L (∪)). symmetry.
      apply subseteq_union_1_L, singleton_subseteq_l, elem_of_dom. eauto.
    + destruct (gather_spec m (h, k)) as (nt & ps & Hg & Hlen' & Hnonempty).
      assert (Hne : (h, k) ≠ (0, 0)).
      { intros Heq. apply not_elem_of_dom in Hm. apply Hm. rewrite Hdom, Heq.
        apply elem_of_union. left. by apply elem_of_singleton. }
      assert (Hin : (h, k) ∈ product (range row) (range col)).
      { rewrite Hscan. apply elem_of_app. right. left. }
      apply elem_of_product in Hin as [Hh Hk]. apply elem_of_range in Hh, Hk.
      assert (Hnt : nt ≠ []).
      { apply Hnonempty. destruct (decide (k = 0)) as [->|Hk0].
        - exists (-1, 0). split; [by repeat constructor|].
          apply elem_of_dom. rewrite Hdom. apply elem_of_union. right.
          apply elem_of_list_to_set. simpl.
          apply (scan_predecessor row col pre post h 0); [done| | |].
          + assert (h ≠ 0) by (intros ->; done). lia.
          + lia.
          + left. simpl. lia.
        - exists (0, -1). split; [by repeat constructor|].
          apply elem_of_dom. rewrite Hdom. apply elem_of_union. right.
          apply elem_of_list_to_set. simpl.
          apply (scan_predecessor row col pre post h k); [done| | |].
          + lia.
          + lia.
          + right. simpl. lia. }
      assert (Hz : zip nt ps ≠ []).
      { destruct nt as [|s nt]; [done|]. destruct ps as [|p ps]; [done|]. done. }
      assert (Hargs : ∀ s p, (s, p) ∈ zip nt ps →
                0 ≤ s < self_n (self w) ∧ 0 ≤ p < 8).
      { intros s p Hsp.
        apply (gather_fold_from m (h, k)
                 (λ x, 0 ≤ x.1 < self_n (self w) ∧ 0 ≤ x.2 < 8)
                 adjacent_neighbors [] [] nt ps eq_refl) with (x := (s, p));
          [| |done|done].
        - intros s' p' a n Ha Hn. simpl. split; [eauto|].
          by eapply inverse_neighbor_range.
        - intros x Hx. by apply elem_of_nil in Hx. }
      pose proof (generate_step_run m (h, k) w nt ps Hm Hg) as Hstep.
      destruct (coupled_markov_chain_total w nt ps Hlen Htable Hz Hargs)
        as [(t & w1 & Hc & Ht & Hself)|Hc]; rewrite Hc in Hstep.
      * rewrite (bind_ok _ _ w (<[(h, k) := t]> m) w1) by done.
        apply (IH (pre ++ [(h, k)])).
        -- by rewrite Hself.
        -- by rewrite Hself.
        -- done.
        -- by rewrite dom_insert_L, seed_union_snoc, <-Hdom, (comm_L (∪)).
        -- intros a s Ha. rewrite Hself.
           destruct (decide (a = (h, k))) as [->|Hne'].
           ++ rewrite lookup_insert_eq in Ha. by injection Ha as <-.
           ++ rewrite lookup_insert_ne in Ha by done. eauto.
      * right. exists w. by rewrite (bind_raise _ _ w AssertionError w).
Qed.

(** X14: on a generator whose table was built from a training mapping with
    tiles in [0, n), [n > 0], [generate] either returns a mapping or raises
    [AssertionError] (an empty intersection); no lookup or sampling error
    can occur. *)
Theorem generate_fails_only_by_assertion w row col :
  _compute_counts (self_mapping (self w)) (self_n (self w))
  = Ok (self_counts (self w)) →
  (∀ p t, cells (self_mapping (self w)) !! p = Some t → 0 ≤ t < self_n (self w)) →
  0 < self_n (self w) →
  (∃ m w', generate row col w = (Ok m, w')) ∨
  (∃ w', generate row col w = (Raise AssertionError, w')).
Proof.
  intros Hbuilt Htrain Hn.
  destruct (trained_table w Hbuilt Htrain) as [Hlen Htable].
  destruct (random_choice_ok (range (self_n (self w))) w (range_nonempty _ Hn))
    as (tile & Htile & Hr).
  apply elem_of_range in Htile.
  set (w1 := MkWorld (self w) (np_random w) _) in Hr.
  assert (Hgen : generate row col w
                 = match foldP generate_step {[ (0, 0) := tile ]}
                           (product (range row) (range col)) w1 with
                   | (Ok cs, w') => (Ok (MkMapping row col cs), w')
                   | (Raise e, w') => (Raise e, w')
                   end).
  { unfold generate. unfold bind at 1, get_n. by rewrite (bind_ok _ _ _ _ _ Hr). }
  rewrite Hgen.
  destruct (foldP_generate_step_total row col (product (range row) (range col)) []
              {[ (0, 0) := tile ]} w1 Hlen Htable eq_refl)
    as [(m' & w' & Hf)|[w' Hf]].
  - rewrite dom_singleton_L. simpl. by rewrite (right_id_L ∅ (∪)).
  - intros a s Ha. by apply lookup_singleton_Some in Ha as [_ <-].
  - left. exists (MkMapping row col m'), w'. by rewrite Hf.
  - right. exists w'. by rewrite Hf.
Qed.

Lemma generate_fails_only_by_assertion_witness :
  (∃ m w', generate 2 2 (ab_world [] [1%nat]) = (Ok m, w')) ∨
  (∃ w', generate 2 2 (ab_world [] [1%nat]) = (Raise AssertionError, w')).
Proof.
  apply (generate_fails_only_by_assertion (ab_world [] [1%nat]) 2 2).
  - vm_compute. reflexivity.
  - apply ab_mapping_tiles.
  - vm_compute. reflexivity.
Defined.

(** * Properties of the tile extractor *)

Section processor_facts.
Context {Tile : Type} `{EqDecision Tile}.

Implicit Types (self : Processor.TiledImageProcessor (Tile := Tile)).
Implicit Types (image : Processor.Image (Tile := Tile)).

(** ** The tile list *)

Lemma dedup_fold_spec {A} (f : A → Tile) (l : list A) (acc : list Tile) :
  NoDup acc →
  let tiles := foldl (λ tiles a, if decide (f a ∈ tiles) then tiles
                                 else tiles ++ [f a]) acc l in
  NoDup tiles ∧
  (∀ t, t ∈ tiles ↔ t ∈ acc ∨ ∃ a, a ∈ l ∧ t = f a) ∧
  ∃ more, tiles = acc ++ more.
Proof.
  revert acc. induction l as [|a l IH]; intros acc Hnd; simpl.
  - split_and!; [done| |exists []; by rewrite app_nil_r].
    intros t. split; [by left|]. intros [?|(a & Ha & _)]; [done|].
    by apply elem_of_nil in Ha.
  - destruct (decide (f a ∈ acc)) as [Hin|Hnin].
    + destruct (IH acc Hnd) as (Hnd' & Hel & Hpre). split_and!; [done| |done].
      intros t. rewrite Hel. split.
      * intros [?|(a' & Ha' & ->)]; [by left|]. right. exists a'.
        split; [by right|done].
      * intros [?|(a' & Ha' & ->)]; [by left|].
        apply elem_of_cons in Ha' as [->|Ha']; [by left|]. right. eauto.
    + destruct (IH (acc ++ [f a])) as (Hnd' & Hel & more & Hpre).
      { apply NoDup_app. split_and!; [done| |apply NoDup_singleton].
        intros t Ht Ht'. apply list_elem_of_singleton in Ht' as ->. done. }
      split_and!; [done| |].
      * intros t. rewrite Hel, elem_of_app, list_elem_of_singleton. split.
        -- intros [[?| ->]|(a' & Ha' & ->)]; [by left| |].
           ++ right. exists a. split; [left|done].
           ++ right. exists a'. split; [by right|done].
        -- intros [?|(a' & Ha' & ->)]; [by left; left|].
           apply elem_of_cons in Ha' as [->|Ha']; [left; by right|].
           right. eauto.
      * exists ([f a] ++ more). by rewrite Hpre, <-app_assoc.
Qed.

Lemma image_to_tiles_members image x y col row :
  NoDup (Processor._image_to_tiles image x y col row) ∧
  ∀ t, t ∈ Processor._image_to_tiles image x y col row ↔
       ∃ i j, 0 ≤ i < col ∧ 0 ≤ j < row ∧
              t = Processor.crop image (Processor.box x y (i, j)).
Proof.
  unfold Processor._image_to_tiles.
  destruct (dedup_fold_spec (λ ij, Processor.crop image (Processor.box x y ij))
              (product (range col) (range row)) [] (NoDup_nil_2))
    as (Hnd & Hel & _).
  split; [done|]. intros t. rewrite Hel. split.
  - intros [Hn|([i j] & Hin & ->)]; [by apply elem_of_nil in Hn|].
    apply elem_of_product in Hin as [Hi Hj]. apply elem_of_range in Hi, Hj.
    by exists i, j.
  - intros (i & j & Hi & Hj & ->). right. exists (i, j). split; [|done].
    apply elem_of_product. by rewrite !elem_of_range.
Qed.

(** X15: [_image_to_tiles] lists every distinct crop of the grid exactly
    once: the list has no duplicates, and a tile is in it exactly when it is
    the crop of some cell with column below [col] and row below [row]. *)
Theorem image_to_tiles_distinct image x y col row :
  NoDup (Processor._image_to_tiles image x y col row) ∧
  ∀ t, t ∈ Processor._image_to_tiles image x y col row ↔
       ∃ i j, 0 ≤ i < col ∧ 0 ≤ j < row ∧
              t = Processor.crop image (Processor.box x y (i, j)).
Proof. apply image_to_tiles_members. Qed.

(** ** Tile ids *)

(** X16: [tile_id] returns the position of the tile in the tile list, so
    indexing the list with it gives the tile back; it raises
    [AssertionError] exactly for a tile that is not in the list; and in a
    list without duplicates the id of the tile at index [k] is [k]. *)
Theorem tile_id_index self tile :
  (∀ i, Processor.tile_id self tile = Ok i →
        0 ≤ i < Z.of_nat (length (Processor.tile_list self)) ∧
        list_getitem (Processor.tile_list self) i = Ok tile) ∧
  (Processor.tile_id self tile = Raise AssertionError ↔
   tile ∉ Processor.tile_list self) ∧
  (NoDup (Processor.tile_list self) →
   ∀ k, Processor.tile_list self !! k = Some tile →
        Processor.tile_id self tile = Ok (Z.of_nat k)).
Proof.
  unfold Processor.tile_id. split_and!.
  - intros i. destruct (list_find _ _) as [[k t]|] eqn:Hf; [|discriminate].
    intros [= <-]. apply list_find_Some in Hf as (Hk & -> & _).
    pose proof (lookup_lt_Some _ _ _ Hk). split; [lia|].
    apply list_getitem_in_range; [lia|]. by rewrite Nat2Z.id.
  - destruct (list_find _ _) as [[k t]|] eqn:Hf.
    + apply list_find_Some in Hf as (Hk & -> & _). split; [discriminate|].
      intros Hn. exfalso. apply Hn. by eapply list_elem_of_lookup_2.
    + apply list_find_None in Hf. rewrite Forall_forall in Hf.
      split; [|done]. intros _ Hin. by apply (Hf tile).
  - intros Hnd k Hk. destruct (list_find _ _) as [[k' t]|] eqn:Hf.
    + apply list_find_Some in Hf as (Hk' & -> & _).
      by rewrite (NoDup_lookup _ _ _ _ Hnd Hk Hk').
    + apply list_find_None in Hf. rewrite Forall_forall in Hf.
      exfalso. apply (Hf tile); [by eapply list_elem_of_lookup_2|done].
Qed.

(** ** The mapping of an image *)

Lemma insert_fold_lookup {V} (f : Z * Z → V) (l : list (Z * Z))
    (acc : gmap (Z * Z) V) k :
  foldl (λ d ij, <[ij := f ij]> d) acc l !! k
  = if decide (k ∈ l) then Some (f k) else acc !! k.
Proof.
  revert acc. induction l as [|a l IH]; intros acc; simpl.
  - destruct (decide (k ∈ [])) as [Hin|_]; [|done]. by apply elem_of_nil in Hin.
  - rewrite IH. destruct (decide (k ∈ l)) as [Hin|Hnin].
    + by rewrite decide_True by (by right).
    + destruct (decide (k = a)) as [->|Hne].
      * rewrite decide_True by left. by rewrite lookup_insert_eq.
      * rewrite decide_False by (rewrite elem_of_cons; tauto).
        by rewrite lookup_insert_ne.
Qed.

Lemma all_tiles_lookup image x y col row i j :
  Processor._all_tiles image x y col row !! (i, j)
  = if decide (0 ≤ i < col ∧ 0 ≤ j < row)
    then Some (Processor.crop image (Processor.box x y (i, j))) else None.
Proof.
  unfold Processor._all_tiles. rewrite insert_fold_lookup, lookup_empty.
  destruct (decide (0 ≤ i < col ∧ 0 ≤ j < row)) as [Hin|Hout].
  - rewrite decide_True; [done|]. apply elem_of_product. by rewrite !elem_of_range.
  - rewrite decide_False; [done|]. rewrite elem_of_product, !elem_of_range. tauto.
Qed.

Lemma tile_id_ok self tile :
  tile ∈ Processor.tile_list self →
  ∃ k, Processor.tile_list self !! k = Some tile ∧
       Processor.tile_id self tile = Ok (Z.of_nat k).
Proof.
  intros Hin. unfold Processor.tile_id.
  destruct (list_find _ _) as [[k t]|] eqn:Hf.
  - apply list_find_Some in Hf as (Hk & -> & _). eauto.
  - apply list_find_None in Hf. rewrite Forall_forall in Hf.
    exfalso. by apply (Hf tile).
Qed.

Lemma mapping_fold self (its : list ((Z * Z) * Tile)) (acc : gmap (Z * Z) Z) :
  (∀ it, it ∈ its → it.2 ∈ Processor.tile_list self) →
  ∃ m,
    foldR (λ (m : gmap (Z * Z) Z) (it : (Z * Z) * Tile),
             id <~ Processor.tile_id self it.2 ;; Ok (<[it.1 := id]> m))
          acc its = Ok m ∧
    dom m = dom acc ∪ list_to_set its.*1 ∧
    ∀ k id, m !! k = Some id →
            acc !! k = Some id ∨
            ∃ t, (k, t) ∈ its ∧ Processor.tile_id self t = Ok id.
Proof.
  revert acc. induction its as [|[k t] its IH]; intros acc Hin.
  - exists acc. split_and!; [done| |by left]. simpl.
    by rewrite (right_id_L ∅ (∪)).
  - destruct (tile_id_ok self t) as (i & Hi & Hid); [by apply (Hin (k, t)); left|].
    simpl foldR. simpl fst. simpl snd. rewrite Hid. simpl bindR.
    destruct (IH (<[k := Z.of_nat i]> acc)) as (m & Hm & Hdom & Hval).
    { intros it Hit. apply Hin. by right. }
    exists m. split_and!; [done| |].
    + rewrite Hdom, dom_insert_L. simpl.
      by rewrite (assoc_L (∪)), (comm_L (∪) {[k]}).
    + intros k' id Hk'. destruct (Hval k' id Hk') as [Hacc|(t' & Ht' & Hid')].
      * destruct (decide (k' = k)) as [->|Hne].
        -- rewrite lookup_insert_eq in Hacc. injection Hacc as <-.
           right. exists t. split; [left|done].
        -- rewrite lookup_insert_ne in Hacc by done. by left.
      * right. exists t'. split; [by right|done].
Qed.

Lemma processor_init_inv image tile_x tile_y self :
  Processor.__init__ image tile_x tile_y = inr self →
  tile_x ≠ 0 ∧ tile_y ≠ 0 ∧
  Processor.x self = tile_x ∧ Processor.y self = tile_y ∧
  Processor.img self = image ∧
  Processor.col self = (Processor.size image).1 `div` tile_x ∧
  Processor.row self = (Processor.size image).2 `div` tile_y ∧
  Processor.tile_list self
  = Processor._image_to_tiles image tile_x tile_y
      (Processor.col self) (Processor.row self) ∧
  Processor.n self = Z.of_nat (length (Processor.tile_list self)).
Proof.
  unfold Processor.__init__. destruct (Processor.size image) as [w h].
  destruct (decide (tile_x = 0)); [discriminate|].
  destruct (decide (tile_y = 0)); [discriminate|].
  intros [= <-]. simpl. done.
Qed.

Lemma processor_mapping_facts image tile_x tile_y self :
  Processor.__init__ image tile_x tile_y = inr self →
  ∃ m,
    Processor.mapping self = Ok m ∧
    info_row m = Processor.row self ∧ info_col m = Processor.col self ∧
    (∀ i j, is_Some (cells m !! (i, j)) ↔
            0 ≤ i < Processor.col self ∧ 0 ≤ j < Processor.row self) ∧
    (∀ i j id, cells m !! (i, j) = Some id →
               0 ≤ id < Processor.n self ∧
               list_getitem (Processor.tile_list self) id
               = Ok (Processor.crop image (Processor.box tile_x tile_y (i, j)))) ∧
    (∀ id, 0 ≤ id < Processor.n self → ∃ i j, cells m !! (i, j) = Some id).
Proof.
  intros (Hx0 & Hy0 & Hx & Hy & Himg & Hcol & Hrow & Htl & Hn)%processor_init_inv.
  destruct (image_to_tiles_members image tile_x tile_y
              (Processor.col self) (Processor.row self)) as [Hnd Hel].
  rewrite <-Htl in Hnd, Hel.
  set (tiles := Processor._all_tiles image tile_x tile_y
                  (Processor.col self) (Processor.row self)).
  assert (Htiles : ∀ i j t, tiles !! (i, j) = Some t ↔
            (0 ≤ i < Processor.col self ∧ 0 ≤ j < Processor.row self) ∧
            t = Processor.crop image (Processor.box tile_x tile_y (i, j))).
  { intros i j t. unfold tiles. rewrite all_tiles_lookup.
    case_decide; [|split; [done|tauto]]. split; [by intros [= <-]|].
    by intros [_ ->]. }
  destruct (mapping_fold self (map_to_list tiles) ∅) as (cs & Hcs & Hdom & Hval).
  { intros [[i j] t] Hit. apply elem_of_map_to_list, Htiles in Hit as [[Hi Hj] ->].
    simpl. apply Hel. by exists i, j. }
  exists (MkMapping (Processor.row self) (Processor.col self) cs).
  assert (Hkeys : ∀ i j, is_Some (cs !! (i, j)) ↔
            0 ≤ i < Processor.col self ∧ 0 ≤ j < Processor.row self).
  { intros i j. rewrite <-elem_of_dom, Hdom, dom_empty_L, (left_id_L ∅ (∪)).
    rewrite elem_of_list_to_set, list_elem_of_fmap. split.
    - intros ([[i' j'] t] & [= -> ->] & Hit).
      by apply elem_of_map_to_list, Htiles in Hit as [? _].
    - intros Hij. eexists ((i, j), _). split; [done|].
      apply elem_of_map_to_list, Htiles. done. }
  assert (Hget : ∀ i j id, cs !! (i, j) = Some id →
            0 ≤ id < Processor.n self ∧
            list_getitem (Processor.tile_list self) id
            = Ok (Processor.crop image (Processor.box tile_x tile_y (i, j)))).
  { intros i j id Hid. destruct (Hval _ _ Hid) as [He|(t & Hit & Ht)];
      [by rewrite lookup_empty in He|].
    apply elem_of_map_to_list, Htiles in Hit as [_ ->].
    unfold Processor.tile_id in Ht.
    destruct (list_find _ _) as [[k t]|] eqn:Hf; [|discriminate].
    injection Ht as <-. apply list_find_Some in Hf as (Hk & -> & _).
    pose proof (lookup_lt_Some _ _ _ Hk). split; [lia|].
    apply list_getitem_in_range; [lia|]. by rewrite Nat2Z.id. }
  split_and!; try done.
  - unfold Processor.mapping. rewrite Hx, Hy, Himg. fold tiles.
    by rewrite Hcs.
  - intros id Hid.
    destruct (lookup_lt_is_Some_2 (Processor.tile_list self) (Z.to_nat id))
      as [t Ht]; [lia|].
    destruct (proj1 (Hel t) (list_elem_of_lookup_2 _ _ _ Ht))
      as (i & j & Hi & Hj & ->).
    exists i, j. destruct (proj2 (Hkeys i j) (conj Hi Hj)) as [id' Hid'].
    destruct (Hget _ _ _ Hid') as [Hr Hg]. simpl. rewrite Hid'. f_equal.
    unfold list_getitem in Hg. rewrite norm_index_in_range in Hg by lia.
    simpl in Hg.
    destruct (Processor.tile_list self !! Z.to_nat id') as [t'|] eqn:Ht';
      [|discriminate].
    injection Hg as ->.
    pose proof (NoDup_lookup _ _ _ _ Hnd Ht Ht'). lia.
Qed.

(** X17: for a processor built from an image, [mapping] never raises.
    Its result declares [row] rows and [col] columns, has exactly the keys
    [(i, j)] with [i] below [col] and [j] below [row], maps each cell to an
    id in [0, n) under which the tile list holds the crop of that cell, and
    uses every id in [0, n). *)
Theorem processor_mapping image tile_x tile_y self :
  Processor.__init__ image tile_x tile_y = inr self →
  ∃ m,
    Processor.mapping self = Ok m ∧
    info_row m = Processor.row self ∧ info_col m = Processor.col self ∧
    (∀ i j, is_Some (cells m !! (i, j)) ↔
            0 ≤ i < Processor.col self ∧ 0 ≤ j < Processor.row self) ∧
    (∀ i j id, cells m !! (i, j) = Some id →
               0 ≤ id < Processor.n self ∧
               list_getitem (Processor.tile_list self) id
               = Ok (Processor.crop image (Processor.box tile_x tile_y (i, j)))) ∧
    (∀ id, 0 ≤ id < Processor.n self → ∃ i j, cells m !! (i, j) = Some id).
Proof. apply processor_mapping_facts. Qed.

(** X18: the mapping and tile count of a processor are always accepted by
    the generator's constructor: [TiledImageGenerator(foo.mapping(), foo.n)]
    does not raise. *)
Theorem processor_feeds_generator image tile_x tile_y self :
  Processor.__init__ image tile_x tile_y = inr self →
  ∃ m g,
    Processor.mapping self = Ok m ∧
    __init__ m (Processor.n self) = Ok g ∧
    self_mapping g = m ∧ self_n g = Processor.n self.
Proof.
  intros (m & Hm & Hr & Hc & Hkeys & Hids & _)%processor_mapping_facts.
  destruct (compute_counts_complete m (Processor.n self)) as (counts & Hcc & _).
  - intros u v. by rewrite Hkeys, Hr, Hc.
  - intros [i j] t Ht. by destruct (Hids i j t Ht).
  - exists m, (MkGenerator m (Processor.n self) counts).
    split_and!; [done| |done..]. unfold __init__. by rewrite Hcc.
Qed.

(** ** Rendering a mapping *)

Lemma tile_grid_nonneg a b : 0 ≤ a → b ≠ 0 → 0 ≤ a `div` b * b.
Proof.
  intros Ha Hb. pose proof (Z.div_mod a b Hb) as Hdm.
  destruct (Z.lt_trichotomy b 0) as [Hneg|[->|Hpos]]; [|done|].
  - pose proof (Z.mod_neg_bound a b Hneg). lia.
  - pose proof (Z.div_pos a b Ha Hpos). nia.
Qed.

Lemma mapping_to_image_fold self (m : Mapping) (f : Z * Z → Tile) l canvas :
  (∀ uv, uv ∈ l → ∃ id, cells m !! uv = Some id ∧
                        list_getitem (Processor.tile_list self) id = Ok (f uv)) →
  foldR (λ sheet uv,
           match cells m !! uv with
           | None => Ok sheet
           | Some id =>
             tile <~ list_getitem (Processor.tile_list self) id ;;
             Ok (Processor.paste sheet tile
                   (uv.1 * Processor.x self, uv.2 * Processor.y self))
           end) canvas l
  = Ok (Processor.MkCanvas (Processor.canvas_size canvas)
          (Processor.pastes canvas
           ++ ((λ uv, (f uv, (uv.1 * Processor.x self, uv.2 * Processor.y self)))
                 <$> l))).
Proof.
  revert canvas. induction l as [|uv l IH]; intros canvas Hl.
  - simpl. rewrite app_nil_r. by destruct canvas.
  - destruct (Hl uv) as (id & Hid & Hget); [left|].
    simpl foldR. rewrite Hid, Hget. simpl bindR.
    rewrite IH by (intros uv' Huv'; apply Hl; by right).
    unfold Processor.paste. simpl. by rewrite <-app_assoc.
Qed.

(** X19: rendering the mapping of an image puts back, at every cell of the
    grid and in scan order, the crop the cell was cut from; the rendered
    size is the part of the image covered by whole tiles. *)
Theorem mapping_to_image_round_trip image tile_x tile_y self m :
  Processor.__init__ image tile_x tile_y = inr self →
  0 ≤ (Processor.size image).1 → 0 ≤ (Processor.size image).2 →
  Processor.mapping self = Ok m →
  Processor.mapping_to_image self m
  = Ok (Processor.MkCanvas
          (Processor.col self * tile_x, Processor.row self * tile_y)
          ((λ uv, (Processor.crop image (Processor.box tile_x tile_y uv),
                   (uv.1 * tile_x, uv.2 * tile_y)))
             <$> product (range (Processor.col self)) (range (Processor.row self)))).
Proof.
  intros Hinit Hw Hh Hm.
  destruct (processor_mapping_facts _ _ _ _ Hinit)
    as (m' & Hm' & Hr & Hc & Hkeys & Hids & _).
  rewrite Hm in Hm'. injection Hm' as <-.
  apply processor_init_inv in Hinit
    as (Hx0 & Hy0 & Hx & Hy & Himg & Hcol & Hrow & Htl & Hn).
  unfold Processor.mapping_to_image. rewrite Hr, Hc, Hx, Hy.
  unfold Processor.image_new.
  rewrite decide_False.
  2:{ simpl. rewrite Hcol, Hrow.
      pose proof (tile_grid_nonneg _ _ Hw Hx0).
      pose proof (tile_grid_nonneg _ _ Hh Hy0). lia. }
  simpl bindR.
  pose proof (mapping_to_image_fold self m
                (λ uv, Processor.crop image (Processor.box tile_x tile_y uv))
                (product (range (Processor.col self)) (range (Processor.row self)))
                (Processor.MkCanvas
                   (Processor.col self * tile_x, Processor.row self * tile_y) []))
    as Hfold.
  rewrite Hx, Hy in Hfold. rewrite Hfold; [done|].
  intros [i j] Hin. apply elem_of_product in Hin as [Hi Hj].
  apply elem_of_range in Hi, Hj.
  destruct (proj2 (Hkeys i j) (conj Hi Hj)) as [id Hid].
  exists id. split; [done|]. by destruct (Hids _ _ _ Hid).
Qed.

(** ** The tile sheet *)




(** ** Rendering any mapping *)

Lemma list_getitem_ok {A} (l : list A) i :
  - Z.of_nat (length l) ≤ i < Z.of_nat (length l) → ∃ x, list_getitem l i = Ok x.
Proof.
  intros Hi. unfold list_getitem.
  destruct (norm_index_in _ _ Hi) as (j & Hj & ->). simpl.
  destruct (lookup_lt_is_Some_2 l j Hj) as [x Hx]. rewrite Hx. eauto.
Qed.

Lemma list_getitem_out {A} (l : list A) i :
  i < - Z.of_nat (length l) ∨ Z.of_nat (length l) ≤ i →
  list_getitem l i = Raise IndexError.
Proof. intros Hi. unfold list_getitem. by rewrite norm_index_out. Qed.

Lemma render_fold self (m : Mapping) l canvas :
  (∀ uv id, uv ∈ l → cells m !! uv = Some id →
            - Z.of_nat (length (Processor.tile_list self)) ≤ id
            < Z.of_nat (length (Processor.tile_list self))) →
  ∃ sheet,
    foldR (λ sheet uv,
             match cells m !! uv with
             | None => Ok sheet
             | Some id =>
               tile <~ list_getitem (Processor.tile_list self) id ;;
               Ok (Processor.paste sheet tile
                     (uv.1 * Processor.x self, uv.2 * Processor.y self))
             end) canvas l = Ok sheet ∧
    Processor.canvas_size sheet = Processor.canvas_size canvas ∧
    (Processor.pastes sheet).*2
    = (Processor.pastes canvas).*2
      ++ ((λ uv : Z * Z, (uv.1 * Processor.x self, uv.2 * Processor.y self))
            <$> filter (λ uv, is_Some (cells m !! uv)) l).
Proof.
  revert canvas. induction l as [|uv l IH]; intros canvas Hl.
  - exists canvas. split_and!; [done..|]. rewrite filter_nil. simpl.
    by rewrite app_nil_r.
  - simpl foldR. destruct (cells m !! uv) as [id|] eqn:Hid.
    + destruct (list_getitem_ok (Processor.tile_list self) id) as [t Ht];
        [by apply (Hl uv); [left|]|].
      rewrite Ht. simpl bindR.
      destruct (IH (Processor.paste canvas t
                      (uv.1 * Processor.x self, uv.2 * Processor.y self)))
        as (sheet & Hs & Hsize & Hp).
      { intros uv' id' Huv'. apply Hl. by right. }
      exists sheet. split_and!; [done..|].
      rewrite Hp, filter_cons_True by (rewrite Hid; eauto).
      unfold Processor.paste. simpl. rewrite fmap_app, <-app_assoc. done.
    + simpl bindR. destruct (IH canvas) as (sheet & Hs & Hsize & Hp).
      { intros uv' id' Huv'. apply Hl. by right. }
      exists sheet. split_and!; [done..|].
      rewrite Hp, filter_cons_False; [done|]. rewrite Hid. by intros [? ?].
Qed.

(** X21: [mapping_to_image] pastes, in scan order, exactly the cells of the
    declared rectangle that are keys of the mapping; cells that are missing
    stay blank and keys outside the rectangle are ignored.  It needs a
    rectangle of non-negative pixel size and ids that index the tile
    list. *)
Theorem mapping_to_image_cells self (m : Mapping) :
  0 ≤ info_col m * Processor.x self → 0 ≤ info_row m * Processor.y self →
  (∀ u v id, 0 ≤ u < info_col m → 0 ≤ v < info_row m →
             cells m !! (u, v) = Some id →
             - Z.of_nat (length (Processor.tile_list self)) ≤ id
             < Z.of_nat (length (Processor.tile_list self))) →
  ∃ sheet,
    Processor.mapping_to_image self m = Ok sheet ∧
    Processor.canvas_size sheet
    = (info_col m * Processor.x self, info_row m * Processor.y self) ∧
    (Processor.pastes sheet).*2
    = (λ uv : Z * Z, (uv.1 * Processor.x self, uv.2 * Processor.y self))
        <$> filter (λ uv, is_Some (cells m !! uv))
                   (product (range (info_col m)) (range (info_row m))).
Proof.
  intros Hwidth Hheight Hids. unfold Processor.mapping_to_image.
  unfold Processor.image_new. rewrite decide_False by (cbn [fst snd]; lia).
  unfold bindR.
  destruct (render_fold self m (product (range (info_col m)) (range (info_row m)))
              (Processor.MkCanvas
                 (info_col m * Processor.x self, info_row m * Processor.y self) []))
    as (sheet & Hs & Hsize & Hp).
  { intros [u v] id Hin. apply elem_of_product in Hin as [Hu Hv].
    apply elem_of_range in Hu, Hv. by apply Hids. }
  exists sheet. split_and!; done.
Qed.

Lemma render_fold_error self (m : Mapping) l canvas uv id :
  uv ∈ l → cells m !! uv = Some id →
  (id < - Z.of_nat (length (Processor.tile_list self))
   ∨ Z.of_nat (length (Processor.tile_list self)) ≤ id) →
  foldR (λ sheet uv,
           match cells m !! uv with
           | None => Ok sheet
           | Some id =>
             tile <~ list_getitem (Processor.tile_list self) id ;;
             Ok (Processor.paste sheet tile
                   (uv.1 * Processor.x self, uv.2 * Processor.y self))
           end) canvas l = Raise IndexError.
Proof.
  intros Hin Hid Hout. revert canvas.
  induction l as [|uv' l IH]; intros canvas; [by apply elem_of_nil in Hin|].
  simpl foldR. destruct (cells m !! uv') as [id'|] eqn:Hid'.
  - destruct (decide (- Z.of_nat (length (Processor.tile_list self)) ≤ id'
                      < Z.of_nat (length (Processor.tile_list self)))) as [Hok|Hbad].
    + destruct (list_getitem_ok _ _ Hok) as [t ->]. simpl bindR.
      apply elem_of_cons in Hin as [->|Hin]; [|by apply IH].
      rewrite Hid in Hid'. injection Hid' as <-. lia.
    + by rewrite list_getitem_out by lia.
  - simpl bindR. apply elem_of_cons in Hin as [->|Hin]; [congruence|by apply IH].
Qed.

(** X22: a mapping that holds, inside its declared rectangle, an id that
    does not index the tile list makes [mapping_to_image] raise
    [IndexError]; a rectangle of negative pixel width or height makes it
    raise [ValueError] before any cell is looked at. *)
Theorem mapping_to_image_errors self (m : Mapping) :
  (info_col m * Processor.x self < 0 ∨ info_row m * Processor.y self < 0 →
   Processor.mapping_to_image self m = Raise ValueError) ∧
  (0 ≤ info_col m * Processor.x self → 0 ≤ info_row m * Processor.y self →
   ∀ u v id, 0 ≤ u < info_col m → 0 ≤ v < info_row m →
     cells m !! (u, v) = Some id →
     (id < - Z.of_nat (length (Processor.tile_list self))
      ∨ Z.of_nat (length (Processor.tile_list self)) ≤ id) →
     Processor.mapping_to_image self m = Raise IndexError).
Proof.
  unfold Processor.mapping_to_image, Processor.image_new. split.
  - intros Hneg. by rewrite decide_True.
  - intros Hwidth Hheight u v id Hu Hv Hid Hout.
    rewrite decide_False by (cbn [fst snd]; lia). unfold bindR.
    apply (render_fold_error self m _ _ (u, v) id); [|done|done].
    apply elem_of_product. by rewrite !elem_of_range.
Qed.

(** ** The number of tiles *)

Lemma dedup_fold_length {A} (f : A → Tile) (l : list A) (acc : list Tile) :
  (length (foldl (λ tiles a, if decide (f a ∈ tiles) then tiles
                             else tiles ++ [f a]) acc l)
   ≤ length acc + length l)%nat.
Proof.
  revert acc. induction l as [|a l IH]; intros acc; simpl; [lia|].
  destruct (decide (f a ∈ acc)).
  - specialize (IH acc). lia.
  - specialize (IH (acc ++ [f a])). rewrite length_app in IH. simpl in IH. lia.
Qed.

Lemma image_to_tiles_length image x y col row :
  (length (Processor._image_to_tiles image x y col row)
   ≤ length (product (range col) (range row)))%nat.
Proof.
  unfold Processor._image_to_tiles.
  apply (dedup_fold_length
           (λ ij, Processor.crop image (Processor.box x y ij)) _ []).
Qed.

(** X23: a processor holds at most one tile per cell of the grid, and it
    holds no tile exactly when the grid has no cell (the image is smaller
    than a tile, or a tile size is negative). *)
Theorem processor_tile_count image tile_x tile_y self :
  Processor.__init__ image tile_x tile_y = inr self →
  0 ≤ Processor.n self ≤ Z.max 0 (Processor.col self) * Z.max 0 (Processor.row self) ∧
  (Processor.n self = 0 ↔ Processor.col self ≤ 0 ∨ Processor.row self ≤ 0).
Proof.
  intros Hinit.
  apply processor_init_inv in Hinit
    as (Hx0 & Hy0 & Hx & Hy & Himg & Hcol & Hrow & Htl & Hn).
  pose proof (image_to_tiles_length image tile_x tile_y
                (Processor.col self) (Processor.row self)) as Hle.
  rewrite <-Htl, length_product in Hle. unfold range in Hle.
  rewrite !length_seqZ in Hle. simpl in Hle.
  destruct (image_to_tiles_members image tile_x tile_y
              (Processor.col self) (Processor.row self)) as [_ Hel].
  rewrite <-Htl in Hel. split; [nia|]. rewrite Hn. split.
  - intros Hz. destruct (Processor.tile_list self) as [|t ts] eqn:Hts;
      [|simpl in Hz; lia].
    destruct (decide (Processor.col self ≤ 0)); [by left|right].
    destruct (decide (Processor.row self ≤ 0)) as [|Hr]; [done|].
    exfalso.
    assert (Hin : Processor.crop image (Processor.box tile_x tile_y (0, 0)) ∈ @nil Tile).
    { apply Hel. exists 0, 0. split_and!; [lia..|done]. }
    by apply elem_of_nil in Hin.
  - intros Hempty. destruct (Processor.tile_list self) as [|t ts]; [done|].
    destruct (proj1 (Hel t) ltac:(left)) as (i & j & Hi & Hj & _). lia.
Qed.

End processor_facts.

Lemma processor_mapping_witness :
  ∃ m,
    Processor.mapping stripes_processor = Ok m ∧
    info_row m = Processor.row stripes_processor ∧
    info_col m = Processor.col stripes_processor ∧
    (∀ i j, is_Some (cells m !! (i, j)) ↔
            0 ≤ i < Processor.col stripes_processor ∧
            0 ≤ j < Processor.row stripes_processor) ∧
    (∀ i j id, cells m !! (i, j) = Some id →
               0 ≤ id < Processor.n stripes_processor ∧
               list_getitem (Processor.tile_list stripes_processor) id
               = Ok (Processor.crop stripes (Processor.box 16 16 (i, j)))) ∧
    (∀ id, 0 ≤ id < Processor.n stripes_processor →
           ∃ i j, cells m !! (i, j) = Some id).
Proof.
  apply (processor_mapping stripes 16 16 stripes_processor). reflexivity.
Defined.

Lemma processor_feeds_generator_witness :
  ∃ m g,
    Processor.mapping stripes_processor = Ok m ∧
    __init__ m (Processor.n stripes_processor) = Ok g ∧
    self_mapping g = m ∧ self_n g = Processor.n stripes_processor.
Proof.
  apply (processor_feeds_generator stripes 16 16 stripes_processor). reflexivity.
Defined.

Lemma mapping_to_image_round_trip_witness :
  Processor.mapping_to_image stripes_processor ab_mapping
  = Ok (Processor.MkCanvas
          (Processor.col stripes_processor * 16, Processor.row stripes_processor * 16)
          ((λ uv, (Processor.crop stripes (Processor.box 16 16 uv),
                   (uv.1 * 16, uv.2 * 16)))
             <$> product (range (Processor.col stripes_processor))
                         (range (Processor.row stripes_processor)))).
Proof.
  apply (mapping_to_image_round_trip stripes 16 16 stripes_processor ab_mapping).
  - reflexivity.
  - simpl. lia.
  - simpl. lia.
  - vm_compute. reflexivity.
Defined.


Lemma mapping_to_image_cells_witness :
  ∃ sheet,
    Processor.mapping_to_image stripes_processor
      (MkMapping 1 2 {[ (0, 0) := 0; (0, 1) := 0 ]}) = Ok sheet ∧
    Processor.canvas_size sheet
    = (info_col (MkMapping 1 2 {[ (0, 0) := 0; (0, 1) := 0 ]})
       * Processor.x stripes_processor,
       info_row (MkMapping 1 2 {[ (0, 0) := 0; (0, 1) := 0 ]})
       * Processor.y stripes_processor) ∧
    (Processor.pastes sheet).*2
    = (λ uv : Z * Z, (uv.1 * Processor.x stripes_processor,
                      uv.2 * Processor.y stripes_processor))
        <$> filter (λ uv, is_Some (cells (MkMapping 1 2 {[ (0, 0) := 0; (0, 1) := 0 ]})
                                   !! uv))
                   (product (range (info_col (MkMapping 1 2 {[ (0, 0) := 0; (0, 1) := 0 ]})))
                            (range (info_row (MkMapping 1 2 {[ (0, 0) := 0; (0, 1) := 0 ]})))).
Proof.
  apply (mapping_to_image_cells stripes_processor
           (MkMapping 1 2 {[ (0, 0) := 0; (0, 1) := 0 ]})).
  - simpl. lia.
  - simpl. lia.
  - intros u v id Hu Hv Hid. simpl in *.
    assert (u = 0 ∨ u = 1) as [-> | ->] by lia; assert (v = 0) as -> by lia.
    + apply lookup_insert_Some in Hid as [[_ <-]|[Hne _]]; [lia|done].
    + vm_compute in Hid. discriminate.
Defined.

Lemma processor_tile_count_witness :
  0 ≤ Processor.n stripes_processor
  ≤ Z.max 0 (Processor.col stripes_processor)
    * Z.max 0 (Processor.row stripes_processor) ∧
  (Processor.n stripes_processor = 0 ↔
   Processor.col stripes_processor ≤ 0 ∨ Processor.row stripes_processor ≤ 0).
Proof.
  apply (processor_tile_count stripes 16 16 stripes_processor). reflexivity.
Defined.
